(** * Follow service: a shallow embedding and its checked properties

    The development follows the layering of the service:

    - the relational schema ([User], [Follow]) and the state of the
      database server ([World]);
    - asynchronous computations that either resolve or reject
      ([Promise]), with [Promise.all] and [try]/[catch];
    - the Prisma client calls the service issues ([prisma.user.*],
      [prisma.follow.*]);
    - [FollowService] (follow.service.ts), transcribed method by method;
    - the HTTP shell: [errorHandler] and [followController];
    - the properties of the service, one theorem per claim. *)

From Stdlib Require Import ZArith Lia.
From stdpp Require Import base decidable option list strings pretty sorting.

Set Default Proof Using "Type".

(** ** Rows of the two tables *)

Module User.
Record t := mk {
  id : string;
  username : string;
  displayName : option string;
  createdAt : Z
}.
End User.

Module Follow.
Record t := mk {
  id : string;
  followerId : string;
  followeeId : string;
  createdAt : Z
}.

(** The column pair covered by the unique index. *)
Definition pair (f : t) : string * string := (followerId f, followeeId f).
End Follow.

(** The projection [select: { id, username, displayName }]. *)
Module Profile.
Record t := mk {
  id : string;
  username : string;
  displayName : option string
}.

Definition of_user (u : User.t) : t :=
  mk (User.id u) (User.username u) (User.displayName u).
End Profile.

(** ** Thrown values *)

(** What a [throw] can carry: an [AppError] (errors.ts), any other
    [Error], or a value that is not an [Error] at all. *)
Inductive thrown :=
  | AppError (statusCode : Z) (message : string) (code : option string)
  | JsError (message : string)
  | NonError (value : string).

(** A line written with [console.error]: a thrown value serialized with
    all its own properties, the stack of an [Error], or a label followed
    by a text. *)
Inductive LogEntry :=
  | LogSerialized (err : thrown)
  | LogStack (err : thrown)
  | LogText (label text : string).

(** ** The database server *)

(** Modelled from the spec: the Prisma schema and the generated client
    ([prisma/schema.prisma], [src/db/prisma.ts]) are not part of the
    sources at hand.  The tables and their constraints are those of the
    documented schema: primary keys on [id], [UNIQUE(followerId,
    followeeId)], [CHECK(followerId != followeeId)], foreign keys from
    both endpoints to [User(id)], [id] defaulting to a generated
    identifier and [createdAt] defaulting to the server's clock.

    - [users], [follows]: the rows, in the order of their insertion;
    - [id_seq]: how many identifiers the generator has handed out;
    - [now]: the server clock, in milliseconds;
    - [pending]: what the environment does to the next client calls, one
      entry per call: [None] lets the call through, [Some msg] makes the
      client reject with an [Error] carrying [msg] (connection lost,
      time-out, ...) without touching the tables.  An exhausted list
      lets every call through;
    - [console]: what the process has written with [console.error];
    - [turns]: what else the environment decides for the next client
      calls, one entry per call: the time that passes before the call
      reaches the server, and the order in which the server comes across
      the rows it reads.  An exhausted list lets no time pass and reads
      the rows as they were inserted;
    - [scan]: the order in which the server comes across the rows during
      the call in progress. *)

(** What the environment decides for one client call: [elapsed]
    milliseconds pass before it reaches the server, and the server reads
    the rows in the order [scan_order] describes (see [visit]). *)
Record Turn := mkTurn {
  elapsed : nat;
  scan_order : list nat
}.

Record World := mkWorld {
  users : list User.t;
  follows : list Follow.t;
  id_seq : nat;
  now : Z;
  pending : list (option string);
  console : list LogEntry;
  turns : list Turn;
  scan : list nat
}.

Definition set_pending (p : list (option string)) (w : World) : World :=
  mkWorld (users w) (follows w) (id_seq w) (now w) p (console w)
          (turns w) (scan w).

Definition set_follows (fs : list Follow.t) (w : World) : World :=
  mkWorld (users w) fs (id_seq w) (now w) (pending w) (console w)
          (turns w) (scan w).

Definition bump_id_seq (w : World) : World :=
  mkWorld (users w) (follows w) (S (id_seq w)) (now w) (pending w) (console w)
          (turns w) (scan w).

Definition console_error (entry : LogEntry) (w : World) : World :=
  mkWorld (users w) (follows w) (id_seq w) (now w) (pending w)
          (console w ++ [entry]) (turns w) (scan w).

Definition set_turns (ts : list Turn) (w : World) : World :=
  mkWorld (users w) (follows w) (id_seq w) (now w) (pending w) (console w)
          ts (scan w).

(** The world as a client call finds it at the server: the clock has
    moved on, the order of the scan is set, and [rest] is what the
    environment still holds for the calls to come. *)
Definition arrive (rest : list (option string)) (w : World) : World :=
  let turn := default (mkTurn 0 []) (head (turns w)) in
  mkWorld (users w) (follows w) (id_seq w)
          (now w + Z.of_nat (elapsed turn)) rest (console w)
          (tail (turns w)) (scan_order turn).

(** The persisted state: the two tables and nothing else. *)
Definition tables (w : World) : list User.t * list Follow.t :=
  (users w, follows w).

(** The state the database server keeps: the tables and the identifier
    generator. *)
Definition server (w : World) : list User.t * list Follow.t * nat :=
  (users w, follows w, id_seq w).

(** The [n]-th identifier of the generator. *)
Definition gen_uuid (n : nat) : string := "follow-" +:+ pretty n.

(** ** errors.ts *)

Module ErrorCodes.
Definition USER_NOT_FOUND : string := "USER_NOT_FOUND".
Definition SELF_FOLLOW : string := "SELF_FOLLOW".
Definition DUPLICATE_FOLLOW : string := "DUPLICATE_FOLLOW".
Definition FOLLOW_NOT_FOUND : string := "FOLLOW_NOT_FOUND".
Definition INVALID_INPUT : string := "INVALID_INPUT".
Definition INTERNAL_ERROR : string := "INTERNAL_ERROR".
End ErrorCodes.

Definition createError (statusCode : Z) (message code : string) : thrown :=
  AppError statusCode message (Some code).

(** ** Promises *)

Inductive outcome (A : Type) :=
  | Resolved (a : A)
  | Rejected (e : thrown).
Arguments Resolved {A} a.
Arguments Rejected {A} e.

(** An awaited computation: it runs against the world and settles. *)
Definition Promise (A : Type) : Type := World → outcome A * World.

Module Promise.
Definition resolve {A} (a : A) : Promise A := λ w, (Resolved a, w).
Definition reject {A} (e : thrown) : Promise A := λ w, (Rejected e, w).

(** [const x = await p; k x] *)
Definition await {A B} (p : Promise A) (k : A → Promise B) : Promise B :=
  λ w, match p w with
       | (Resolved a, w') => k a w'
       | (Rejected e, w') => (Rejected e, w')
       end.

(** [Promise.all([p, q])]: both calls are issued, in array order; the
    result rejects with the rejection of the first element that
    rejects. *)
Definition all {A B} (p : Promise A) (q : Promise B) : Promise (A * B) :=
  λ w, let '(ra, w1) := p w in
       let '(rb, w2) := q w1 in
       match ra, rb with
       | Resolved a, Resolved b => (Resolved (a, b), w2)
       | Rejected e, _ => (Rejected e, w2)
       | Resolved _, Rejected e => (Rejected e, w2)
       end.

(** [try { body } catch (error) { handler error }] *)
Definition try_catch {A} (body : Promise A) (handler : thrown → Promise A)
  : Promise A :=
  λ w, match body w with
       | (Resolved a, w') => (Resolved a, w')
       | (Rejected e, w') => handler e w'
       end.
End Promise.

Notation "'let!' x ':=' p 'in' k" := (Promise.await p (λ x, k))
  (at level 10, x name, p at level 100, k at level 200, only parsing).
Notation "'let!' ''' x ':=' p 'in' k" := (Promise.await p (λ x, k))
  (at level 10, x strict pattern, p at level 100, k at level 200,
   only parsing).

(** ** JavaScript helpers *)

(** [hay.includes(needle)] *)
Fixpoint includes (hay needle : string) : bool :=
  String.prefix needle hay ||
  match hay with
  | EmptyString => false
  | String _ rest => includes rest needle
  end.

(** [err instanceof Error]: [AppError] extends [Error]. *)
Definition instanceof_Error (e : thrown) : bool :=
  match e with
  | AppError _ _ _ | JsError _ => true
  | NonError _ => false
  end.

Definition instanceof_AppError (e : thrown) : bool :=
  match e with
  | AppError _ _ _ => true
  | _ => false
  end.

(** [err.message], for an [Error]. *)
Definition message_of (e : thrown) : string :=
  match e with
  | AppError _ m _ | JsError m => m
  | NonError _ => ""
  end.

(** ** Ordering rows

    [ORDER BY key] sorts the rows the server has come across by [key]
    alone.  The queries of the service name no second key, so the order
    among rows with equal keys is the order in which the server came
    across them, and that order is the environment's (see [visit]): no
    query can rely on it. *)

Section sort.
Context {A : Type} (ahead : A → A → bool).

(** [x] was come across before every row of [l]: it passes only the
    rows that are strictly ahead of it. *)
Fixpoint insert_row (x : A) (l : list A) : list A :=
  match l with
  | [] => [x]
  | y :: l' => if ahead y x then y :: insert_row x l' else x :: l
  end.

Definition order_by (l : list A) : list A := foldr insert_row [] l.
End sort.

(** The rows in the order in which a scan comes across them.  The scan
    names, step by step, which of the rows not yet read comes next
    (counted from 0 among them, wrapping around); where it names none,
    the first of them does.  Every arrangement of the rows is the visit
    of some scan, and the empty scan reads the rows as they are. *)
Fixpoint visit_n {A} (n : nat) (scan : list nat) (rows : list A) : list A :=
  match n with
  | 0 => []
  | S n' =>
      let i := hd 0 scan mod length rows in
      match rows !! i with
      | Some x => x :: visit_n n' (tl scan) (delete i rows)
      | None => []
      end
  end.

Definition visit {A} (scan : list nat) (rows : list A) : list A :=
  visit_n (length rows) scan rows.

(** [orderBy: { createdAt: 'desc' }]: [y] is ahead of [x] when it is
    strictly more recent. *)
Definition createdAt_desc (y x : Follow.t) : bool :=
  bool_decide (Follow.createdAt x < Follow.createdAt y)%Z.

(** [orderBy: { username: 'asc' }] *)
Definition username_asc (y x : User.t) : bool :=
  String.ltb (User.username y) (User.username x).

(** ** The Prisma client *)

(** Every client call first meets the environment. *)
Definition store_call {A} (run : World → outcome A * World) : Promise A :=
  λ w, match pending w with
       | [] => run (arrive [] w)
       | None :: rest => run (arrive rest w)
       | Some msg :: rest => (Rejected (JsError msg), arrive rest w)
       end.

(** [where: { followeeId }] and [where: { followerId }] *)
Inductive FollowWhere :=
  | WhereFollowee (userId : string)
  | WhereFollower (userId : string).

Definition selects (wh : FollowWhere) (f : Follow.t) : Prop :=
  match wh with
  | WhereFollowee u => Follow.followeeId f = u
  | WhereFollower u => Follow.followerId f = u
  end.

Global Instance selects_dec wh f : Decision (selects wh f).
Proof. destruct wh; simpl; apply _. Defined.

(** [include: { follower: ... }] and [include: { followee: ... }] *)
Inductive FollowInclude := IncludeFollower | IncludeFollowee.

Definition related (inc : FollowInclude) (f : Follow.t) : string :=
  match inc with
  | IncludeFollower => Follow.followerId f
  | IncludeFollowee => Follow.followeeId f
  end.

Definition unique_violation : string :=
  "Unique constraint failed on the fields: (`followerId`,`followeeId`)".
Definition check_violation : string :=
  "A constraint failed on the database: follow_no_self_follow".
Definition foreign_key_violation : string :=
  "Foreign key constraint failed on the field: Follow_userId_fkey".
Definition record_not_found : string :=
  "Record to delete does not exist.".

(** Modelled from the spec: the client of [src/db/prisma.ts], one
    definition per call the service makes, each acting on the tables as
    the documented schema prescribes. *)
Module prisma.
Module user.
Definition lookup (id : string) (us : list User.t) : option User.t :=
  head (filter (λ u, User.id u = id) us).

(** [prisma.user.findUnique({ where: { id } })] *)
Definition findUnique (id : string) : Promise (option User.t) :=
  store_call (λ w, (Resolved (lookup id (users w)), w)).

(** [prisma.user.findMany({ select, orderBy: { username: 'asc' } })].
    [username] is unique, so that the order of the scan does not show. *)
Definition findMany : Promise (list Profile.t) :=
  store_call (λ w,
    (Resolved (Profile.of_user <$> order_by username_asc (users w)), w)).
End user.

Module follow.
Definition lookup (followerId followeeId : string) (fs : list Follow.t)
  : option Follow.t :=
  head (filter (λ f, Follow.pair f = (followerId, followeeId)) fs).

(** [prisma.follow.create({ data: { followerId, followeeId } })]: the
    row is appended unless a constraint of the table rejects it; its
    [createdAt] is the time at which the call has reached the server. *)
Definition create (followerId followeeId : string) : Promise Follow.t :=
  store_call (λ w,
    if decide (followerId = followeeId) then
      (Rejected (JsError check_violation), w)
    else if decide ((followerId, followeeId) ∈ Follow.pair <$> follows w) then
      (Rejected (JsError unique_violation), w)
    else if decide (followerId ∈ User.id <$> users w
                    ∧ followeeId ∈ User.id <$> users w) then
      let row := Follow.mk (gen_uuid (id_seq w)) followerId followeeId (now w) in
      (Resolved row, bump_id_seq (set_follows (follows w ++ [row]) w))
    else
      (Rejected (JsError foreign_key_violation), w)).

(** [prisma.follow.findUnique({ where: { followerId_followeeId } })] *)
Definition findUnique (followerId followeeId : string)
  : Promise (option Follow.t) :=
  store_call (λ w, (Resolved (lookup followerId followeeId (follows w)), w)).

(** [prisma.follow.delete({ where: { id } })] *)
Definition delete (id : string) : Promise Follow.t :=
  store_call (λ w,
    match head (filter (λ f, Follow.id f = id) (follows w)) with
    | Some row =>
        (Resolved row,
         set_follows (filter (λ f, Follow.id f ≠ id) (follows w)) w)
    | None => (Rejected (JsError record_not_found), w)
    end).

(** [prisma.follow.count({ where })] *)
Definition count (wh : FollowWhere) : Promise Z :=
  store_call (λ w,
    (Resolved (Z.of_nat (length (filter (selects wh) (follows w)))), w)).

(** The rows a [findMany] selects, before the relation is joined:
    [where], [orderBy: { createdAt: 'desc' }] on the rows as the scan
    has come across them, then [skip] and [take].  The service passes
    the values validated by [PaginationSchema] ([take ≥ 1], [skip ≥ 0]). *)
Definition page (wh : FollowWhere) (skip take_ : Z) (scan : list nat)
    (fs : list Follow.t) : list Follow.t :=
  take (Z.to_nat take_)
    (drop (Z.to_nat skip)
       (order_by createdAt_desc (visit scan (filter (selects wh) fs)))).

(** [prisma.follow.findMany({ where, skip, take, include, orderBy })]:
    each selected row comes with the profile of the related user; the
    foreign key makes the inner join total. *)
Definition findMany (wh : FollowWhere) (skip take_ : Z) (inc : FollowInclude)
  : Promise (list (Follow.t * Profile.t)) :=
  store_call (λ w,
    (Resolved
       (omap (λ f, (λ u, (f, Profile.of_user u))
                     <$> user.lookup (related inc f) (users w))
             (page wh skip take_ (scan w) (follows w))),
     w)).
End follow.
End prisma.

(** ** follow.service.ts *)

Record FollowRequest := mkFollowRequest {
  req_followerId : string;
  req_followeeId : string
}.

Record Pagination := mkPagination {
  limit : Z;
  offset : Z
}.

Record Created := mkCreated { created_id : string }.

Record Listing := mkListing {
  total : Z;
  items : list Profile.t
}.

Module FollowService.

Definition followUser (request : FollowRequest) : Promise Created :=
  let followerId := req_followerId request in
  let followeeId := req_followeeId request in
  if decide (followerId = followeeId) then
    Promise.reject
      (createError 400 "Cannot follow yourself" ErrorCodes.SELF_FOLLOW)
  else
    let! '(followerExists, followeeExists) :=
      Promise.all (prisma.user.findUnique followerId)
                  (prisma.user.findUnique followeeId) in
    if negb (bool_decide (is_Some followerExists)) then
      Promise.reject
        (createError 404 "Follower user not found" ErrorCodes.USER_NOT_FOUND)
    else if negb (bool_decide (is_Some followeeExists)) then
      Promise.reject
        (createError 404 "Followee user not found" ErrorCodes.USER_NOT_FOUND)
    else
      Promise.try_catch
        (let! follow := prisma.follow.create followerId followeeId in
         Promise.resolve (mkCreated (Follow.id follow)))
        (λ error,
           if instanceof_Error error
              && includes (message_of error) "Unique constraint failed"
           then
             Promise.reject
               (createError 409 "Already following this user"
                            ErrorCodes.DUPLICATE_FOLLOW)
           else Promise.reject error).

Definition unfollowUser (request : FollowRequest) : Promise unit :=
  let followerId := req_followerId request in
  let followeeId := req_followeeId request in
  let! follow := prisma.follow.findUnique followerId followeeId in
  match follow with
  | None =>
      Promise.reject
        (createError 404 "Follow relationship not found"
                     ErrorCodes.FOLLOW_NOT_FOUND)
  | Some follow =>
      let! _ := prisma.follow.delete (Follow.id follow) in
      Promise.resolve ()
  end.

Definition getFollowers (userId : string) (pagination : Pagination)
  : Promise Listing :=
  let! user := prisma.user.findUnique userId in
  match user with
  | None =>
      Promise.reject
        (createError 404 "User not found" ErrorCodes.USER_NOT_FOUND)
  | Some _ =>
      let! '(total, followers) :=
        Promise.all
          (prisma.follow.count (WhereFollowee userId))
          (prisma.follow.findMany (WhereFollowee userId)
             (offset pagination) (limit pagination) IncludeFollower) in
      Promise.resolve (mkListing total (snd <$> followers))
  end.

Definition getFollowing (userId : string) (pagination : Pagination)
  : Promise Listing :=
  let! user := prisma.user.findUnique userId in
  match user with
  | None =>
      Promise.reject
        (createError 404 "User not found" ErrorCodes.USER_NOT_FOUND)
  | Some _ =>
      let! '(total, following) :=
        Promise.all
          (prisma.follow.count (WhereFollower userId))
          (prisma.follow.findMany (WhereFollower userId)
             (offset pagination) (limit pagination) IncludeFollowee) in
      Promise.resolve (mkListing total (snd <$> following))
  end.

Definition getAllUsers : Promise (list Profile.t) :=
  prisma.user.findMany.

Definition getFollowerCount (userId : string) : Promise Z :=
  let! user := prisma.user.findUnique userId in
  match user with
  | None =>
      Promise.reject
        (createError 404 "User not found" ErrorCodes.USER_NOT_FOUND)
  | Some _ => prisma.follow.count (WhereFollowee userId)
  end.

Definition getFollowingCount (userId : string) : Promise Z :=
  let! user := prisma.user.findUnique userId in
  match user with
  | None =>
      Promise.reject
        (createError 404 "User not found" ErrorCodes.USER_NOT_FOUND)
  | Some _ => prisma.follow.count (WhereFollower userId)
  end.

Definition isFollowing (followerId followeeId : string) : Promise bool :=
  let! follow := prisma.follow.findUnique followerId followeeId in
  Promise.resolve (bool_decide (is_Some follow)).

End FollowService.


(** ** The HTTP shell *)

#[warnings="-register-all"]
Inductive json :=
  | JNull
  | JBool (b : bool)
  | JNumber (n : Z)
  | JString (s : string)
  | JArray (elements : list json)
  | JObject (fields : list (string * json)).

Record Response := mkResponse {
  status : Z;
  body : json
}.

(** What a request handler does: it answers and leaves a world. *)
Definition Handler : Type := World → Response * World.

Definition json_of_profile (p : Profile.t) : json :=
  JObject [("id", JString (Profile.id p));
           ("username", JString (Profile.username p));
           ("displayName",
            match Profile.displayName p with
            | Some d => JString d
            | None => JNull
            end)].

Definition json_of_listing (l : Listing) : json :=
  JObject [("total", JNumber (total l));
           ("items", JArray (json_of_profile <$> items l))].

(** The body [{ success: false, message, code }]; a property whose value
    is [undefined] is left out of the JSON text. *)
Definition error_body (message : string) (code : option string) : json :=
  JObject ([("success", JBool false); ("message", JString message)]
           ++ match code with
              | Some c => [("code", JString c)]
              | None => []
              end).

(** The one body of an unclassified failure. *)
Definition internal_body : json :=
  error_body "Internal server error" (Some "INTERNAL_ERROR").

(** middleware/errorHandler.ts.  The thrown values of this development
    always serialize, so the fallback to [String(err)] is not needed. *)
Definition errorHandler (err : thrown) : Handler := λ w,
  let w1 := console_error (LogSerialized err) w in
  let w2 := if instanceof_Error err then console_error (LogStack err) w1
            else w1 in
  match err with
  | AppError statusCode message code =>
      (mkResponse statusCode (error_body message code), w2)
  | _ => (mkResponse 500 internal_body, w2)
  end.

(** [asyncHandler fn]: a rejection of [fn] goes to [next], that is, to
    [errorHandler], the last middleware of app.ts. *)
Definition asyncHandler (fn : Promise Response) : Handler := λ w,
  match fn w with
  | (Resolved res, w') => (res, w')
  | (Rejected err, w') => errorHandler err w'
  end.

(** controllers/follow.controller.ts.  [follow], [unfollow],
    [getFollowers] and [getFollowing] begin by parsing the request with
    a zod schema of validators.ts; the four definitions take them up
    after that statement, from the parsed value on.  A request that
    fails the parse never reaches them: its [ZodError] goes to
    [errorHandler] as any value that is no [AppError] does. *)
Module followController.

Definition follow (validatedData : FollowRequest) : Handler :=
  asyncHandler
    (let! result := FollowService.followUser validatedData in
     Promise.resolve
       (mkResponse 201
          (JObject [("success", JBool true);
                    ("message", JString "User followed successfully");
                    ("data", JObject [("id", JString (created_id result))])]))).

Definition unfollow (validatedData : FollowRequest) : Handler :=
  asyncHandler
    (let! _ := FollowService.unfollowUser validatedData in
     Promise.resolve
       (mkResponse 200
          (JObject [("success", JBool true);
                    ("message", JString "User unfollowed successfully")]))).

Definition getFollowers (userId : string) (pagination : Pagination) : Handler :=
  asyncHandler
    (let! result := FollowService.getFollowers userId pagination in
     Promise.resolve
       (mkResponse 200
          (JObject [("success", JBool true);
                    ("data", json_of_listing result)]))).

Definition getFollowing (userId : string) (pagination : Pagination) : Handler :=
  asyncHandler
    (let! result := FollowService.getFollowing userId pagination in
     Promise.resolve
       (mkResponse 200
          (JObject [("success", JBool true);
                    ("data", json_of_listing result)]))).

Definition getAllUsers : Handler :=
  asyncHandler
    (Promise.try_catch
       (let! users := FollowService.getAllUsers in
        Promise.resolve
          (mkResponse 200
             (JObject [("success", JBool true);
                       ("data", JArray (json_of_profile <$> users))])))
       (λ err,
          if instanceof_Error err then
            λ w,
              Promise.reject
                (createError 500
                   (if decide (message_of err = "")
                    then "Failed to fetch users" else message_of err)
                   ErrorCodes.INTERNAL_ERROR)
                (console_error
                   (LogText "getAllUsers failed:" (message_of err)) w)
          else
            Promise.reject
              (createError 500 "Failed to fetch users"
                           ErrorCodes.INTERNAL_ERROR))).

Definition getFollowerCount (userId : string) : Handler :=
  asyncHandler
    (let! count := FollowService.getFollowerCount userId in
     Promise.resolve
       (mkResponse 200
          (JObject [("success", JBool true);
                    ("data", JObject [("count", JNumber count)])]))).

Definition getFollowingCount (userId : string) : Handler :=
  asyncHandler
    (let! count := FollowService.getFollowingCount userId in
     Promise.resolve
       (mkResponse 200
          (JObject [("success", JBool true);
                    ("data", JObject [("count", JNumber count)])]))).

(** A query parameter that is not a string is [None]. *)
Definition isFollowing (followerId followeeId : option string) : Handler :=
  asyncHandler
    (match followerId, followeeId with
     | Some followerId, Some followeeId =>
         let! isFollowing := FollowService.isFollowing followerId followeeId in
         Promise.resolve
           (mkResponse 200
              (JObject [("success", JBool true);
                        ("data",
                         JObject [("isFollowing", JBool isFollowing)])]))
     | _, _ =>
         Promise.resolve
           (mkResponse 400
              (JObject
                 [("success", JBool false);
                  ("message",
                   JString "followerId and followeeId query parameters are required")]))
     end).

End followController.

(** The operations of the service, as the router exposes them. *)
Inductive Operation :=
  | Follow_ (request : FollowRequest)
  | Unfollow (request : FollowRequest)
  | ListFollowers (userId : string) (pagination : Pagination)
  | ListFollowing (userId : string) (pagination : Pagination)
  | ListAllUsers
  | FollowerCount (userId : string)
  | FollowingCount (userId : string)
  | IsFollowing (followerId followeeId : option string).

Definition serve (op : Operation) : Handler :=
  match op with
  | Follow_ r => followController.follow r
  | Unfollow r => followController.unfollow r
  | ListFollowers u p => followController.getFollowers u p
  | ListFollowing u p => followController.getFollowing u p
  | ListAllUsers => followController.getAllUsers
  | FollowerCount u => followController.getFollowerCount u
  | FollowingCount u => followController.getFollowingCount u
  | IsFollowing a b => followController.isFollowing a b
  end.

(** ** The schema constraints and the environment *)

(** The user [id] has a row. *)
Definition user_exists (id : string) (w : World) : Prop :=
  id ∈ User.id <$> users w.

(** The pair [(a, b)] has an edge. *)
Definition edge_exists (a b : string) (w : World) : Prop :=
  (a, b) ∈ Follow.pair <$> follows w.

Global Instance user_exists_dec id w : Decision (user_exists id w).
Proof. unfold user_exists. apply _. Defined.

Global Instance edge_exists_dec a b w : Decision (edge_exists a b w).
Proof. unfold edge_exists. apply _. Defined.

(** How many edges the pair [(a, b)] has. *)
Definition edge_count (a b : string) (w : World) : nat :=
  length (filter (λ f, Follow.pair f = (a, b)) (follows w)).

(** [UNIQUE(followerId, followeeId)] *)
Definition unique_pairs (w : World) : Prop :=
  NoDup (Follow.pair <$> follows w).

(** The primary key of [Follow]. *)
Definition unique_ids (w : World) : Prop :=
  NoDup (Follow.id <$> follows w).

(** Both foreign keys of [Follow]. *)
Definition referential (w : World) : Prop :=
  Forall (λ f, user_exists (Follow.followerId f) w
               ∧ user_exists (Follow.followeeId f) w)
         (follows w).

Global Instance referential_dec w : Decision (referential w).
Proof. unfold referential. apply _. Defined.

(** [CHECK(followerId != followeeId)] *)
Definition no_self_edges (w : World) : Prop :=
  Forall (λ f, Follow.followerId f ≠ Follow.followeeId f) (follows w).

(** The generator has not yet handed out the identifier of any row. *)
Definition fresh_ids (w : World) : Prop :=
  ∀ k, id_seq w ≤ k → gen_uuid k ∉ Follow.id <$> follows w.

(** A world in which the constraints of the [Follow] table hold: its
    primary key, its unique index, its two foreign keys and its check;
    and in which the generator is ahead of the identifiers in use. *)
Record consistent (w : World) : Prop := mkConsistent {
  consistent_ids : unique_ids w;
  consistent_pairs : unique_pairs w;
  consistent_references : referential w;
  consistent_no_self : no_self_edges w;
  consistent_fresh : fresh_ids w
}.

(** The constraints of the [User] table: its primary key and the unique
    index on [username]. *)
Record user_constraints (w : World) : Prop := mkUserConstraints {
  user_ids_unique : NoDup (User.id <$> users w);
  usernames_unique : NoDup (User.username <$> users w)
}.

(** The environment lets the next [n] client calls through. *)
Definition calm (n : nat) (p : list (option string)) : Prop :=
  Forall (λ o, o = None) (take n p).

Global Instance calm_dec n p : Decision (calm n p).
Proof. unfold calm. apply _. Defined.

(** The world once a client call has met the environment. *)
Definition called (w : World) : World := arrive (tail (pending w)) w.

(** ** Vocabulary of the statements *)

(** The row a successful [create] appends. *)
Definition new_row (a b : string) (w : World) : Follow.t :=
  Follow.mk (gen_uuid (id_seq w)) a b (now w).

(** A computation that leaves the database server as it found it. *)
Definition preserves_server {A} (p : Promise A) : Prop :=
  ∀ w, server (p w).2 = server w.

(** Every rejection of [p] satisfies [P]. *)
Definition rejects_within {A} (P : thrown → Prop) (p : Promise A) : Prop :=
  ∀ w e, (p w).1 = Rejected e → P e.

(** Not an [AppError] of status 500: a business error of the service, or
    a thrown value that is no [AppError] at all. *)
Definition not_internal_AppError (e : thrown) : Prop :=
  match e with
  | AppError statusCode _ _ => statusCode ≠ 500%Z
  | _ => True
  end.

(** [x] is listed before [y]: it is at least as recent. *)
Definition not_older (x y : Follow.t) : Prop :=
  (Follow.createdAt y ≤ Follow.createdAt x)%Z.

(** The rejection of the reads that check their user. *)
Definition user_not_found : thrown :=
  createError 404 "User not found" ErrorCodes.USER_NOT_FOUND.

(** ** Concrete worlds *)

(** A small world to run the service on. *)
Definition alice : User.t := User.mk "u-alice" "alice" (Some "Alice") 0.
Definition bob : User.t := User.mk "u-bob" "bob" (Some "Bob") 0.
Definition carol : User.t := User.mk "u-carol" "carol" None 0.

Definition seeded : World :=
  mkWorld [alice; bob; carol] [] 0 1000 [] [] [] [].

(** The seeded world once alice follows bob. *)
Definition alice_follows_bob : World :=
  (FollowService.followUser (mkFollowRequest "u-alice" "u-bob") seeded).2.

(** Carol with two followers whose edges were created at the same
    instant, as two instances of the service can create them. *)
Definition alice_to_carol : Follow.t := Follow.mk "follow-0" "u-alice" "u-carol" 1000.
Definition bob_to_carol : Follow.t := Follow.mk "follow-1" "u-bob" "u-carol" 1000.

Definition stored_alice_first : World :=
  mkWorld [alice; bob; carol] [alice_to_carol; bob_to_carol] 2 1000 [] [] [] [].

(** The same world under an environment whose sixth client call comes
    across the rows in the other order. *)
Definition rescanned : World :=
  set_turns (replicate 5 (mkTurn 0 []) ++ [mkTurn 0 [1]]) stored_alice_first.

(** The seeded world under an environment that lets seven milliseconds
    pass before each of the next client calls. *)
Definition ticking : World := set_turns (replicate 12 (mkTurn 7 [])) seeded.

(** Alice and, after her, bob follow carol. *)
Definition carol_followed : World :=
  (FollowService.followUser (mkFollowRequest "u-bob" "u-carol")
     (FollowService.followUser (mkFollowRequest "u-alice" "u-carol")
        ticking).2).2.

(** Alice follows bob and, after him, carol. *)
Definition alice_following : World :=
  (FollowService.followUser (mkFollowRequest "u-alice" "u-carol")
     (FollowService.followUser (mkFollowRequest "u-alice" "u-bob")
        ticking).2).2.

(** The seeded world with a store that fails the next client call, in
    two ways. *)
Definition refused : World :=
  set_pending [Some "connect ECONNREFUSED 10.0.0.5:5432"] seeded.
Definition denied : World :=
  set_pending [Some "password authentication failed for user follow_admin"]
              seeded.

(** ** Identifiers that pass validation *)

(** What a position of the canonical text of a UUID (RFC 4122) holds:
    a hexadecimal digit in lower case, a hyphen, the version (1 to 5)
    or the variant (8, 9, a or b). *)
Inductive slot := Hex | Hyphen | Version | Variant.

Definition hex_digit (c : Ascii.ascii) : bool :=
  let n := Ascii.nat_of_ascii c in
  ((48 <=? n) && (n <=? 57)) || ((97 <=? n) && (n <=? 102)).

Definition fits (k : slot) (c : Ascii.ascii) : bool :=
  let n := Ascii.nat_of_ascii c in
  match k with
  | Hex => hex_digit c
  | Hyphen => n =? 45
  | Version => (49 <=? n) && (n <=? 53)
  | Variant => (n =? 56) || (n =? 57) || (n =? 97) || (n =? 98)
  end.

Definition uuid_slots : list slot :=
  replicate 8 Hex ++ [Hyphen] ++ replicate 4 Hex ++ [Hyphen]
  ++ [Version] ++ replicate 3 Hex ++ [Hyphen]
  ++ [Variant] ++ replicate 3 Hex ++ [Hyphen] ++ replicate 12 Hex.

Fixpoint matches (slots : list slot) (s : string) : bool :=
  match slots, s with
  | [], EmptyString => true
  | k :: slots', String c s' => fits k c && matches slots' s'
  | _, _ => false
  end.

(** The identifiers the statements about the routes speak of: UUIDs in
    canonical form, as the store generates and prints them.
    [FollowRequestSchema] (validators.ts) lets them pass:
    [z.string().uuid()] asks for this shape or a wider one. *)
Definition is_uuid (s : string) : bool := matches uuid_slots s.

(** A world whose users carry UUIDs; dana follows eli. *)
Definition dana_id : string := "aaaaaaaa-aaaa-4aaa-8aaa-aaaaaaaaaaaa".
Definition eli_id : string := "bbbbbbbb-bbbb-4bbb-9bbb-bbbbbbbbbbbb".
Definition fay_id : string := "cccccccc-cccc-4ccc-accc-cccccccccccc".
Definition nobody_id : string := "dddddddd-dddd-4ddd-bddd-dddddddddddd".

Definition dana : User.t := User.mk dana_id "dana" (Some "Dana") 0.
Definition eli : User.t := User.mk eli_id "eli" (Some "Eli") 0.
Definition fay : User.t := User.mk fay_id "fay" None 0.

Definition dana_to_eli : Follow.t := Follow.mk "follow-0" dana_id eli_id 500.

Definition registered : World :=
  mkWorld [dana; eli; fay] [dana_to_eli] 1 1000 [] [] [] [].

(** ** Edges around a user *)

(** The edges that lead to [u] (its followers) and those that leave it
    (whom it follows), as the table stores them. *)
Definition followers_of (u : string) (w : World) : list Follow.t :=
  filter (λ f, Follow.followeeId f = u) (follows w).

Definition following_of (u : string) (w : World) : list Follow.t :=
  filter (λ f, Follow.followerId f = u) (follows w).

(** The profiles that [include] joins to the rows [rows]. *)
Definition joined (inc : FollowInclude) (us : list User.t)
    (rows : list Follow.t) : list Profile.t :=
  snd <$> omap (λ f, (λ u, (f, Profile.of_user u))
                       <$> prisma.user.lookup (related inc f) us) rows.

(** The window [skip], [take] of a list. *)
Definition window {A} (skip take_ : Z) (l : list A) : list A :=
  take (Z.to_nat take_) (drop (Z.to_nat skip) l).

(** ** Bodies the controllers answer with *)

Definition followed_body (id : string) : json :=
  JObject [("success", JBool true);
           ("message", JString "User followed successfully");
           ("data", JObject [("id", JString id)])].

Definition unfollowed_body : json :=
  JObject [("success", JBool true);
           ("message", JString "User unfollowed successfully")].

Definition data_body (data : json) : json :=
  JObject [("success", JBool true); ("data", data)].

Definition count_body (n : Z) : json :=
  data_body (JObject [("count", JNumber n)]).

Definition missing_parameters_body : json :=
  JObject [("success", JBool false);
           ("message",
            JString "followerId and followeeId query parameters are required")].

(** [x] is listed before [y]: its username is not the greater one. *)
Definition username_le (x y : User.t) : Prop :=
  String.leb (User.username x) (User.username y) = true.

(** The operations served one after the other, each in the world the
    previous one left. *)
Definition serve_all (ops : list Operation) (w : World) : World :=
  foldl (λ w op, (serve op w).2) w ops.

(** ** prisma/seed.ts *)

Definition set_users (us : list User.t) (w : World) : World :=
  mkWorld us (follows w) (id_seq w) (now w) (pending w) (console w)
          (turns w) (scan w).

Definition set_id_seq (n : nat) (w : World) : World :=
  mkWorld (users w) (follows w) n (now w) (pending w) (console w)
          (turns w) (scan w).

(** The [n]-th identifier of the generator, as a user receives it. *)
Definition gen_user_id (n : nat) : string := "user-" +:+ pretty n.

(** Modelled from the spec: identifiers are globally unique, so a new
    row receives one that no row has.  [first_unused fuel k ids] is the
    number of the first identifier, from the [k]-th on, that is not
    among [ids]; [fuel] bounds the search, and one more than the number
    of [ids] is always enough. *)
Fixpoint first_unused (fuel k : nat) (ids : list string) : nat :=
  match fuel with
  | 0 => k
  | S fuel' =>
      if decide (gen_user_id k ∈ ids) then first_unused fuel' (S k) ids
      else k
  end.

Definition next_user_id (w : World) : nat :=
  first_unused (length (users w)) (id_seq w) (User.id <$> users w).

Module seed.
(** [update: { displayName }] on one row. *)
Definition renamed (displayName : string) (u : User.t) : User.t :=
  User.mk (User.id u) (User.username u) (Some displayName) (User.createdAt u).

(** The user table after an upsert: the rows with the username get the
    display name; without such a row a new one, [fresh], is appended. *)
Definition put (username displayName : string) (fresh : User.t)
    (us : list User.t) : list User.t :=
  match head (filter (λ u, User.username u = username) us) with
  | Some _ =>
      (λ u, if decide (User.username u = username)
            then renamed displayName u else u) <$> us
  | None => us ++ [fresh]
  end.

(** Modelled from the spec: the call
    [prisma.user.upsert({ where: { username }, update: { displayName },
    create: { username, displayName } })] of the absent client, on the
    documented [User] table ([username] unique, [id] generated and
    unique, [createdAt] from the server's clock). *)
Definition upsert (username displayName : string) : Promise User.t :=
  store_call (λ w,
    let k := next_user_id w in
    let fresh :=
      User.mk (gen_user_id k) username (Some displayName) (now w) in
    match head (filter (λ u, User.username u = username) (users w)) with
    | Some u =>
        (Resolved (renamed displayName u),
         set_users (put username displayName fresh (users w)) w)
    | None =>
        (Resolved fresh,
         set_id_seq (S k)
           (set_users (put username displayName fresh (users w)) w))
    end).

(** [for (const u of users) { await body(u) }] *)
Fixpoint for_of {A} (l : list A) (body : A → Promise unit) : Promise unit :=
  match l with
  | [] => Promise.resolve ()
  | x :: l' => let! _ := body x in for_of l' body
  end.

(** The [users] array of [main]: username and display name. *)
Definition seed_users : list (string * string) :=
  [("alice", "Alice"); ("bob", "Bob"); ("carol", "Carol")].

(** [main()], resolving to what it has written with [console.log]; the
    [catch] and [finally] of the script around it are not part of it. *)
Definition main : Promise (list string) :=
  let! _ := for_of seed_users
              (λ u, let! _ := upsert u.1 u.2 in Promise.resolve ()) in
  Promise.resolve ["Seed complete"].
End seed.

(** The row of [username] is there and carries [displayName]. *)
Definition seeded_with (username displayName : string) (us : list User.t)
  : Prop :=
  username ∈ User.username <$> us
  ∧ Forall (λ u, User.username u = username
                 → User.displayName u = Some displayName) us.

(** A computation that keeps the edges, keeps every user row's
    identifier and username in place, and never winds the identifier
    generator back. *)
Definition grows {A} (p : Promise A) : Prop :=
  ∀ w,
    follows (p w).2 = follows w
    ∧ ((λ u, (User.id u, User.username u)) <$> users w)
        `prefix_of` ((λ u, (User.id u, User.username u)) <$> users (p w).2)
    ∧ id_seq w ≤ id_seq (p w).2.

(** A computation that keeps the property [I] of the world. *)
Definition keeps {A} (I : World → Prop) (p : Promise A) : Prop :=
  ∀ w, I w → I (p w).2.

(** The status and code of the four business errors of the service. *)
Definition business_errors : list (Z * string) :=
  [(400%Z, "SELF_FOLLOW"); (404%Z, "USER_NOT_FOUND");
   (409%Z, "DUPLICATE_FOLLOW"); (404%Z, "FOLLOW_NOT_FOUND")].

(** A thrown value that is a business error, or no [AppError] at all. *)
Definition business_or_raw (e : thrown) : Prop :=
  match e with
  | AppError statusCode _ (Some code) => (statusCode, code) ∈ business_errors
  | AppError _ _ None => False
  | _ => True
  end.

(** A computation that writes nothing to the console. *)
Definition silent {A} (p : Promise A) : Prop :=
  ∀ w, console (p w).2 = console w.

(** An answer within the error taxonomy: a success, the 400 of a missing
    query parameter, or an error body whose status and code belong
    together. *)
Definition expected_answer (r : Response) : Prop :=
  status r = 200%Z ∨ status r = 201%Z
  ∨ r = mkResponse 400 missing_parameters_body
  ∨ ∃ message code,
      body r = error_body message (Some code)
      ∧ (status r, code) ∈ (500%Z, "INTERNAL_ERROR") :: business_errors.

(** An answer that is no error answer of [errorHandler]. *)
Definition plain_answer (r : Response) : Prop :=
  status r = 200%Z ∨ status r = 201%Z
  ∨ r = mkResponse 400 missing_parameters_body.

(** The console after an operation, against the one before: untouched
    under a plain answer; otherwise grown by the thrown value that
    [errorHandler] has answered. *)
Definition console_account (w : World) (res : Response * World) : Prop :=
  (plain_answer res.1 ∧ console res.2 = console w)
  ∨ ∃ e w',
      res.1 = (errorHandler e w').1
      ∧ ¬ plain_answer res.1
      ∧ console w `prefix_of` console res.2
      ∧ LogSerialized e ∈ console res.2.

(** * Properties *)

(** ** The environment *)

Lemma calm_S n p : calm (S n) p → calm 1 p ∧ calm n (tail p).
Proof.
  unfold calm. destruct p as [|o p]; simpl.
  - rewrite take_nil. auto.
  - rewrite take_0. inversion 1; subst. auto.
Qed.

Lemma store_call_calm {A} (run : World → outcome A * World) w :
  calm 1 (pending w) → store_call run w = run (called w).
Proof.
  destruct w as [us fs n t [|[msg|] p] c ts sc]; unfold store_call, called; simpl.
  - done.
  - unfold calm. simpl. rewrite take_0. by inversion 1.
  - done.
Qed.

Lemma store_call_fault {A} (run : World → outcome A * World) w msg :
  head (pending w) = Some (Some msg) →
  store_call run w = (Rejected (JsError msg), called w).
Proof.
  destruct w as [us fs n t [|[m|] p] c ts sc]; unfold store_call, called; simpl;
    intros; by simplify_eq.
Qed.

(** ** The classification of a store error *)

Example includes_unique_violation :
  includes unique_violation "Unique constraint failed" = true.
Proof. reflexivity. Qed.

Example includes_foreign_key_violation :
  includes foreign_key_violation "Unique constraint failed" = false.
Proof. reflexivity. Qed.

Example includes_empty_needle : includes "" "" = true.
Proof. reflexivity. Qed.

(** ** Lookups *)

Lemma referential_elem_of w f :
  referential w → f ∈ follows w →
  user_exists (Follow.followerId f) w ∧ user_exists (Follow.followeeId f) w.
Proof. unfold referential. rewrite Forall_forall. auto. Qed.

Lemma user_lookup_Some id us :
  id ∈ User.id <$> us ↔ is_Some (prisma.user.lookup id us).
Proof.
  unfold prisma.user.lookup. rewrite list_elem_of_fmap. split.
  - intros (u & -> & Hu).
    destruct (filter _ us) as [|v l] eqn:E; [|by eexists].
    assert (u ∈ filter (λ u0, User.id u0 = User.id u) us) as Hin
      by by apply list_elem_of_filter.
    rewrite E in Hin. by apply not_elem_of_nil in Hin.
  - intros [u Hu]. apply head_Some in Hu as [l Hl].
    assert (u ∈ filter (λ u0, User.id u0 = id) us) as Hin
      by (rewrite Hl; left).
    apply list_elem_of_filter in Hin as [? ?]. eauto.
Qed.

Lemma follow_lookup_Some a b fs :
  (a, b) ∈ Follow.pair <$> fs ↔ is_Some (prisma.follow.lookup a b fs).
Proof.
  unfold prisma.follow.lookup. rewrite list_elem_of_fmap. split.
  - intros (f & Hf & Hin).
    destruct (filter _ fs) as [|v l] eqn:E; [|by eexists].
    assert (f ∈ filter (λ f0, Follow.pair f0 = (a, b)) fs) as Hin'
      by by apply list_elem_of_filter.
    rewrite E in Hin'. by apply not_elem_of_nil in Hin'.
  - intros [f Hf]. apply head_Some in Hf as [l Hl].
    assert (f ∈ filter (λ f0, Follow.pair f0 = (a, b)) fs) as Hin
      by (rewrite Hl; left).
    apply list_elem_of_filter in Hin as [? ?]. eauto.
Qed.

Lemma follow_lookup_spec a b fs f :
  prisma.follow.lookup a b fs = Some f →
  f ∈ fs ∧ Follow.followerId f = a ∧ Follow.followeeId f = b.
Proof.
  unfold prisma.follow.lookup. intros Hf. apply head_Some in Hf as [l Hl].
  assert (f ∈ filter (λ f0, Follow.pair f0 = (a, b)) fs) as Hin
    by (rewrite Hl; left).
  apply list_elem_of_filter in Hin as [Hp ?].
  unfold Follow.pair in Hp. by simplify_eq.
Qed.

(** ** Computations that leave the database server alone *)

Lemma server_tables w w' : server w' = server w → tables w' = tables w.
Proof. unfold server, tables. congruence. Qed.

Create HintDb frame discriminated.

Lemma preserves_resolve {A} (a : A) : preserves_server (Promise.resolve a).
Proof. done. Qed.

Lemma preserves_reject {A} e : preserves_server (@Promise.reject A e).
Proof. done. Qed.

Lemma preserves_await {A B} (p : Promise A) (k : A → Promise B) :
  preserves_server p → (∀ a, preserves_server (k a)) →
  preserves_server (Promise.await p k).
Proof.
  intros Hp Hk w. unfold Promise.await.
  specialize (Hp w). destruct (p w) as [[a|e] w']; simpl in *; [|done].
  by rewrite Hk.
Qed.

Lemma preserves_all {A B} (p : Promise A) (q : Promise B) :
  preserves_server p → preserves_server q →
  preserves_server (Promise.all p q).
Proof.
  intros Hp Hq w. unfold Promise.all.
  specialize (Hp w). destruct (p w) as [ra w1]; simpl in *.
  specialize (Hq w1). destruct (q w1) as [rb w2]; simpl in *.
  destruct ra, rb; simpl; congruence.
Qed.

Lemma preserves_try_catch {A} (p : Promise A) (h : thrown → Promise A) :
  preserves_server p → (∀ e, preserves_server (h e)) →
  preserves_server (Promise.try_catch p h).
Proof.
  intros Hp Hh w. unfold Promise.try_catch.
  specialize (Hp w). destruct (p w) as [[a|e] w']; simpl in *; [done|].
  by rewrite Hh.
Qed.

Lemma preserves_store_call {A} (run : World → outcome A * World) :
  (∀ w, server (run w).2 = server w) → preserves_server (store_call run).
Proof.
  intros Hrun [us fs n t [|[msg|] p] c ts sc]; unfold store_call; simpl;
    try done; by rewrite Hrun.
Qed.

Lemma preserves_user_findUnique id :
  preserves_server (prisma.user.findUnique id).
Proof. by apply preserves_store_call. Qed.

Lemma preserves_user_findMany : preserves_server prisma.user.findMany.
Proof. by apply preserves_store_call. Qed.

Lemma preserves_follow_findUnique a b :
  preserves_server (prisma.follow.findUnique a b).
Proof. by apply preserves_store_call. Qed.

Lemma preserves_follow_count wh : preserves_server (prisma.follow.count wh).
Proof. by apply preserves_store_call. Qed.

Lemma preserves_follow_findMany wh skip take_ inc :
  preserves_server (prisma.follow.findMany wh skip take_ inc).
Proof. by apply preserves_store_call. Qed.

#[export] Hint Resolve preserves_resolve preserves_reject preserves_await
  preserves_all preserves_try_catch preserves_user_findUnique
  preserves_user_findMany preserves_follow_findUnique preserves_follow_count
  preserves_follow_findMany : frame.

(** Splits a read into its awaited calls and closes each of them. *)
Ltac frame :=
  repeat first
    [ progress eauto with frame
    | apply preserves_await; [|intros ?]
    | match goal with
      | |- preserves_server (match ?x with _ => _ end) => destruct x
      | |- preserves_server (let '(_, _) := ?x in _) => destruct x
      end ].

(** ** Client calls that get through *)

Lemma calm_2 p : calm 2 p → calm 1 p ∧ calm 1 (tail p).
Proof. intros [? ?]%calm_S. done. Qed.

Lemma calm_3 p : calm 3 p → calm 2 p ∧ calm 1 (tail (tail p)).
Proof.
  intros H. destruct (calm_S _ _ H) as [H1 [H2 H3]%calm_S].
  split; [|done]. unfold calm in *.
  destruct p as [|o [|o' p]]; simpl in *; try done.
  rewrite take_0 in *. inversion H1; inversion H2; subst. by repeat constructor.
Qed.

Lemma calm_le n m p : n ≤ m → calm m p → calm n p.
Proof.
  unfold calm. intros Hle H.
  rewrite <-(Nat.min_l n m), <-take_take by done. by apply Forall_take.
Qed.

Lemma calm_drop n m p : calm (n + m) p → calm m (drop n p).
Proof.
  unfold calm. revert p. induction n as [|n IH]; intros p; [done|].
  destruct p as [|o p]; simpl.
  - intros _. by rewrite take_nil.
  - inversion 1; subst. by apply IH.
Qed.

Lemma user_findUnique_calm id w :
  calm 1 (pending w) →
  prisma.user.findUnique id w
  = (Resolved (prisma.user.lookup id (users w)), called w).
Proof. intros. unfold prisma.user.findUnique. by rewrite store_call_calm. Qed.

Lemma follow_findUnique_calm a b w :
  calm 1 (pending w) →
  prisma.follow.findUnique a b w
  = (Resolved (prisma.follow.lookup a b (follows w)), called w).
Proof. intros. unfold prisma.follow.findUnique. by rewrite store_call_calm. Qed.

Lemma follow_count_calm wh w :
  calm 1 (pending w) →
  prisma.follow.count wh w
  = (Resolved (Z.of_nat (length (filter (selects wh) (follows w)))), called w).
Proof. intros. unfold prisma.follow.count. by rewrite store_call_calm. Qed.

(** The two existence checks of [followUser]. *)
Lemma existence_checks_calm a b w :
  calm 2 (pending w) →
  Promise.all (prisma.user.findUnique a) (prisma.user.findUnique b) w
  = (Resolved (prisma.user.lookup a (users w), prisma.user.lookup b (users w)),
     called (called w)).
Proof.
  intros [H1 H2]%calm_2. unfold Promise.all.
  rewrite user_findUnique_calm by done.
  by rewrite user_findUnique_calm by done.
Qed.

Lemma lookup_present id w :
  user_exists id w →
  negb (bool_decide (is_Some (prisma.user.lookup id (users w)))) = false.
Proof.
  intros H%user_lookup_Some. by rewrite bool_decide_eq_true_2.
Qed.

Lemma lookup_absent id w :
  ¬ user_exists id w →
  negb (bool_decide (is_Some (prisma.user.lookup id (users w)))) = true.
Proof.
  intros H. rewrite bool_decide_eq_false_2; [done|].
  by rewrite <-user_lookup_Some.
Qed.

Lemma followUser_creates a b w :
  a ≠ b → user_exists a w → user_exists b w → ¬ edge_exists a b w →
  calm 3 (pending w) →
  FollowService.followUser (mkFollowRequest a b) w
  = (Resolved (mkCreated (gen_uuid (id_seq w))),
     bump_id_seq
       (set_follows
          (follows w ++ [new_row a b (called (called (called w)))])
          (called (called (called w))))).
Proof.
  intros Hab Ha Hb Hedge [H2 H1]%calm_3.
  unfold FollowService.followUser; simpl. rewrite decide_False by done.
  unfold Promise.await at 1. rewrite existence_checks_calm by done.
  rewrite lookup_present, lookup_present by done.
  unfold Promise.try_catch, Promise.await, prisma.follow.create.
  rewrite store_call_calm by done. simpl.
  rewrite decide_False by done.
  rewrite decide_False by done.
  by rewrite decide_True by done.
Qed.

Lemma followUser_duplicate a b w :
  a ≠ b → user_exists a w → user_exists b w → edge_exists a b w →
  calm 3 (pending w) →
  FollowService.followUser (mkFollowRequest a b) w
  = (Rejected (createError 409 "Already following this user"
                           ErrorCodes.DUPLICATE_FOLLOW),
     called (called (called w))).
Proof.
  intros Hab Ha Hb Hedge [H2 H1]%calm_3.
  unfold FollowService.followUser; simpl. rewrite decide_False by done.
  unfold Promise.await at 1. rewrite existence_checks_calm by done.
  rewrite lookup_present, lookup_present by done.
  unfold Promise.try_catch, Promise.await, prisma.follow.create.
  rewrite store_call_calm by done. simpl.
  rewrite decide_False by done.
  by rewrite decide_True by done.
Qed.

Lemma followUser_store_failure a b w msg :
  a ≠ b → user_exists a w → user_exists b w →
  calm 2 (pending w) → pending w !! 2 = Some (Some msg) →
  includes msg "Unique constraint failed" = false →
  FollowService.followUser (mkFollowRequest a b) w
  = (Rejected (JsError msg), called (called (called w))).
Proof.
  intros Hab Ha Hb H2 Hmsg Hcls.
  unfold FollowService.followUser; simpl. rewrite decide_False by done.
  unfold Promise.await at 1. rewrite existence_checks_calm by done.
  rewrite lookup_present, lookup_present by done.
  unfold Promise.try_catch, Promise.await, prisma.follow.create.
  rewrite (store_call_fault _ _ msg).
  - simpl. by rewrite Hcls.
  - destruct w as [us fs n t [|o [|o' [|o'' p]]] c ts sc]; simpl in *; by simplify_eq.
Qed.

Lemma unfollowUser_deletes a b w f :
  prisma.follow.lookup a b (follows w) = Some f →
  calm 2 (pending w) →
  FollowService.unfollowUser (mkFollowRequest a b) w
  = (Resolved (),
     set_follows (filter (λ g, Follow.id g ≠ Follow.id f) (follows w))
                 (called (called w))).
Proof.
  intros Hf [H1 H2]%calm_2.
  unfold FollowService.unfollowUser; simpl.
  unfold Promise.await at 1. rewrite follow_findUnique_calm, Hf by done.
  unfold Promise.await, prisma.follow.delete.
  rewrite store_call_calm by done. simpl.
  apply follow_lookup_spec in Hf as (Hin & _ & _).
  destruct (filter (λ g, Follow.id g = Follow.id f) (follows w)) as [|g l] eqn:E.
  - assert (f ∈ filter (λ g, Follow.id g = Follow.id f) (follows w)) as Hin'
      by by apply list_elem_of_filter.
    rewrite E in Hin'. by apply not_elem_of_nil in Hin'.
  - done.
Qed.

Lemma unfollowUser_not_found a b w :
  prisma.follow.lookup a b (follows w) = None →
  calm 1 (pending w) →
  FollowService.unfollowUser (mkFollowRequest a b) w
  = (Rejected (createError 404 "Follow relationship not found"
                           ErrorCodes.FOLLOW_NOT_FOUND),
     called w).
Proof.
  intros Hf H1.
  unfold FollowService.unfollowUser; simpl.
  unfold Promise.await at 1. by rewrite follow_findUnique_calm, Hf by done.
Qed.

Lemma isFollowing_calm a b w :
  calm 1 (pending w) →
  FollowService.isFollowing a b w
  = (Resolved (bool_decide (is_Some (prisma.follow.lookup a b (follows w)))),
     called w).
Proof.
  intros H1. unfold FollowService.isFollowing, Promise.await.
  by rewrite follow_findUnique_calm by done.
Qed.

Lemma filter_none {A} (P : A → Prop) `{∀ x, Decision (P x)} (l : list A) :
  (∀ x, x ∈ l → ¬ P x) → filter P l = [].
Proof.
  induction l as [|y l IH]; [done|]. intros Hl.
  rewrite filter_cons_False by (apply Hl; left).
  apply IH. intros x Hx. apply Hl. by right.
Qed.

Lemma unique_pair_count {A B} `{EqDecision B} (key : A → B) (l : list A) x :
  NoDup (key <$> l) → x ∈ key <$> l →
  length (filter (λ e, key e = x) l) = 1.
Proof.
  induction l as [|e l IH]; simpl.
  - by intros _ ?%not_elem_of_nil.
  - rewrite NoDup_cons, elem_of_cons. intros [Hnotin Hnd] Hin.
    rewrite filter_cons. case_decide as Hk.
    + subst x. simpl. f_equal. rewrite filter_none; [done|].
      intros e' He' Heq. apply Hnotin.
      rewrite <-Heq. apply list_elem_of_fmap. eauto.
    + destruct Hin as [->|Hin]; [done|]. by apply IH.
Qed.

(** ** Writes *)

Lemma create_effect a b w :
  match prisma.follow.create a b w with
  | (Rejected _, w') => tables w' = tables w
  | (Resolved row, w') =>
      tables w' = (users w, follows w ++ [row])
      ∧ Follow.id row = gen_uuid (id_seq w)
      ∧ Follow.pair row = (a, b)
  end.
Proof.
  destruct w as [us fs n t [|[msg|] p] c ts sc];
    unfold prisma.follow.create, store_call; simpl;
    repeat case_decide; done.
Qed.

(** C2. [followUser] with the same identifier at both ends rejects with
    [SELF_FOLLOW] (status 400), whatever the identifier and the world,
    and hands the world back exactly as it received it: no client call is
    made and no edge is created. *)
Theorem self_follow_rejected (a : string) (w : World) :
  FollowService.followUser (mkFollowRequest a a) w
  = (Rejected (createError 400 "Cannot follow yourself" ErrorCodes.SELF_FOLLOW),
     w).
Proof.
  unfold FollowService.followUser; simpl. by case_decide.
Qed.

(** C9. Whatever the request and the world, a [followUser] that rejects
    (with any thrown value) leaves both tables as they were, and one that
    resolves has appended exactly one edge, from the requested follower
    to the requested followee, whose identifier is the one returned; so
    the edge table changes exactly when the call resolves. *)
Theorem follow_persists_iff_resolved (request : FollowRequest) (w : World) :
  match FollowService.followUser request w with
  | (Rejected _, w') => tables w' = tables w
  | (Resolved result, w') =>
      ∃ row,
        tables w' = (users w, follows w ++ [row])
        ∧ follows w' ≠ follows w
        ∧ Follow.id row = created_id result
        ∧ Follow.followerId row = req_followerId request
        ∧ Follow.followeeId row = req_followeeId request
  end.
Proof.
  destruct request as [a b]. unfold FollowService.followUser; simpl.
  case_decide; [done|].
  unfold Promise.await at 1.
  pose proof (server_tables _ _
                (preserves_all _ _ (preserves_user_findUnique a)
                   (preserves_user_findUnique b) w)) as Hall.
  destruct (Promise.all _ _ w) as [[[ua ub]|e] w1]; simpl in Hall; [|done].
  destruct (negb (bool_decide (is_Some ua))); [done|].
  destruct (negb (bool_decide (is_Some ub))); [done|].
  unfold Promise.try_catch, Promise.await.
  pose proof (create_effect a b w1) as Hc.
  destruct (prisma.follow.create a b w1) as [[row|e2] w2]; simpl.
  - destruct Hc as (Ht & Hid & Hp). exists row.
    assert (follows w2 = follows w ++ [row]) as Hf
      by (unfold tables in *; congruence).
    assert (users w2 = users w) as Hu by (unfold tables in *; congruence).
    unfold Follow.pair in Hp.
    split_and!; [unfold tables; congruence| |done|congruence..].
    rewrite Hf. intros Heq. apply (f_equal length) in Heq.
    rewrite length_app in Heq. simpl in Heq. lia.
  - destruct (instanceof_Error e2 && includes (message_of e2) _);
      unfold Promise.reject; simpl; congruence.
Qed.

(** C10. None of the six reads ([isFollowing], [getFollowers],
    [getFollowing], [getFollowerCount], [getFollowingCount],
    [getAllUsers]) changes a table: for every argument and every world,
    also one whose environment makes client calls fail, the user rows and
    the edge rows after the call are those before it. *)
Theorem reads_preserve_tables (w : World) :
  (∀ a b, tables (FollowService.isFollowing a b w).2 = tables w)
  ∧ (∀ u p, tables (FollowService.getFollowers u p w).2 = tables w)
  ∧ (∀ u p, tables (FollowService.getFollowing u p w).2 = tables w)
  ∧ (∀ u, tables (FollowService.getFollowerCount u w).2 = tables w)
  ∧ (∀ u, tables (FollowService.getFollowingCount u w).2 = tables w)
  ∧ tables (FollowService.getAllUsers w).2 = tables w.
Proof.
  repeat split; intros;
    match goal with |- tables (?p w).2 = _ => cut (preserves_server p) end;
    try (by intros H; apply server_tables, H); clear w;
    unfold FollowService.isFollowing, FollowService.getFollowers,
      FollowService.getFollowing, FollowService.getFollowerCount,
      FollowService.getFollowingCount, FollowService.getAllUsers;
    frame.
Qed.

(** Decides a closed proposition by evaluating its decision procedure. *)
Ltac by_evaluation :=
  match goal with
  | |- ?P => apply (bool_decide_unpack P); vm_compute; exact I
  end.

(** ** Follow *)

(** C1. Let [a] and [b] be distinct users that both exist.  If the tables
    hold an edge from [a] to [b], the pair index is unique and the next
    three client calls get through, then [followUser] rejects with
    [DUPLICATE_FOLLOW] (status 409), obtained from the unique-constraint
    message the [create] call rejects with; the tables are unchanged and
    hold exactly one edge from [a] to [b].  If instead the [create] call
    fails with a message that does not contain "Unique constraint
    failed", [followUser] rethrows that error, the tables are unchanged,
    and the controller answers 500 with the generic internal body, not a
    success. *)
Theorem duplicate_follow_rejected (a b : string) (w : World) :
  a ≠ b → user_exists a w → user_exists b w →
  (edge_exists a b w → unique_pairs w → calm 3 (pending w) →
   let res := FollowService.followUser (mkFollowRequest a b) w in
   (prisma.follow.create a b (called (called w))).1
   = Rejected (JsError unique_violation)
   ∧ res.1 = Rejected (createError 409 "Already following this user"
                                   ErrorCodes.DUPLICATE_FOLLOW)
   ∧ tables res.2 = tables w
   ∧ edge_count a b res.2 = 1)
  ∧ (∀ msg,
       calm 2 (pending w) → pending w !! 2 = Some (Some msg) →
       includes msg "Unique constraint failed" = false →
       let res := FollowService.followUser (mkFollowRequest a b) w in
       res.1 = Rejected (JsError msg)
       ∧ tables res.2 = tables w
       ∧ (followController.follow (mkFollowRequest a b) w).1
         = mkResponse 500 internal_body).
Proof.
  intros Hab Ha Hb. split.
  - intros Hedge Huniq Hcalm. simpl.
    rewrite followUser_duplicate by done. simpl.
    apply calm_3 in Hcalm as [_ H1].
    split_and!; try done.
    + unfold prisma.follow.create. rewrite store_call_calm by done. simpl.
      rewrite decide_False by done. by rewrite decide_True by done.
    + by apply unique_pair_count.
  - intros msg Hcalm Hmsg Hcls. simpl.
    unfold followController.follow, asyncHandler, Promise.await.
    by rewrite (followUser_store_failure _ _ _ msg) by done.
Qed.

Lemma duplicate_follow_witness :
  ((FollowService.followUser (mkFollowRequest "u-alice" "u-bob")
      alice_follows_bob).1
   = Rejected (createError 409 "Already following this user"
                           ErrorCodes.DUPLICATE_FOLLOW)
   ∧ edge_count "u-alice" "u-bob"
       (FollowService.followUser (mkFollowRequest "u-alice" "u-bob")
          alice_follows_bob).2 = 1)
  ∧ (followController.follow (mkFollowRequest "u-alice" "u-bob")
       (set_pending [None; None; Some "Connection refused"] alice_follows_bob)).1
    = mkResponse 500 internal_body.
Proof.
  split.
  - destruct (duplicate_follow_rejected "u-alice" "u-bob" alice_follows_bob)
      as [Hdup _]; [done|by_evaluation..|].
    destruct Hdup as (_ & Hres & _ & Hcount); [by_evaluation..|].
    by split.
  - destruct (duplicate_follow_rejected "u-alice" "u-bob"
                (set_pending [None; None; Some "Connection refused"]
                             alice_follows_bob))
      as [_ Hfail]; [done|by_evaluation..|].
    destruct (Hfail "Connection refused") as (_ & _ & Hresp);
      [by_evaluation|reflexivity|reflexivity|].
    exact Hresp.
Defined.

(** C3. Let [a] and [b] be distinct and let the two existence checks get
    through.  If [a] has no user row, [followUser] rejects with
    [USER_NOT_FOUND] (status 404) and the message "Follower user not
    found"; if [a] has one and [b] has none, it rejects with
    [USER_NOT_FOUND] and the message "Followee user not found".  In both
    cases the tables are unchanged. *)
Theorem follow_missing_user (a b : string) (w : World) :
  a ≠ b → calm 2 (pending w) →
  let res := FollowService.followUser (mkFollowRequest a b) w in
  (¬ user_exists a w →
   res.1 = Rejected (createError 404 "Follower user not found"
                                 ErrorCodes.USER_NOT_FOUND)
   ∧ tables res.2 = tables w)
  ∧ (user_exists a w → ¬ user_exists b w →
     res.1 = Rejected (createError 404 "Followee user not found"
                                   ErrorCodes.USER_NOT_FOUND)
     ∧ tables res.2 = tables w).
Proof.
  intros Hab Hcalm. simpl.
  unfold FollowService.followUser; simpl. rewrite decide_False by done.
  unfold Promise.await. rewrite existence_checks_calm by done.
  split.
  - intros Ha. by rewrite lookup_absent by done.
  - intros Ha Hb. by rewrite lookup_present, lookup_absent by done.
Qed.

Lemma follow_missing_user_witness :
  (FollowService.followUser (mkFollowRequest "u-ghost" "u-bob") seeded).1
  = Rejected (createError 404 "Follower user not found"
                          ErrorCodes.USER_NOT_FOUND)
  ∧ (FollowService.followUser (mkFollowRequest "u-alice" "u-ghost") seeded).1
    = Rejected (createError 404 "Followee user not found"
                            ErrorCodes.USER_NOT_FOUND).
Proof.
  split.
  - destruct (follow_missing_user "u-ghost" "u-bob" seeded) as [H _];
      [done|by_evaluation|].
    apply H. by_evaluation.
  - destruct (follow_missing_user "u-alice" "u-ghost" seeded) as [_ H];
      [done|by_evaluation|].
    apply H; by_evaluation.
Defined.

(** ** Unfollow *)

Lemma delete_exactly (fs : list Follow.t) (f : Follow.t) :
  NoDup (Follow.id <$> fs) → f ∈ fs →
  ∀ g, g ∈ filter (λ g, Follow.id g ≠ Follow.id f) fs ↔ g ∈ fs ∧ g ≠ f.
Proof.
  intros Hnd Hf g. rewrite list_elem_of_filter. split.
  - intros [Hid Hg]. split; [done|]. by intros ->.
  - intros [Hg Hne]. split; [|done]. intros Hid. apply Hne.
    clear Hne. induction fs as [|h fs IH]; [by apply not_elem_of_nil in Hg|].
    simpl in Hnd. apply NoDup_cons in Hnd as [Hh Hnd].
    apply elem_of_cons in Hg as [->|Hg], Hf as [->|Hf]; try done.
    + exfalso. apply Hh. rewrite Hid. apply list_elem_of_fmap. eauto.
    + exfalso. apply Hh. rewrite <-Hid. apply list_elem_of_fmap. eauto.
    + by apply IH.
Qed.

(** C4. Let the next two client calls get through.  [unfollowUser]
    decides on the lookup of the pair in the edge table.  When the pair
    has no edge it rejects with [FOLLOW_NOT_FOUND] (status 404) and the
    tables are unchanged.  When the lookup finds the edge [f] (an edge of
    the table whose endpoints are the requested ones) it resolves, the
    user table is unchanged and the edge table has lost the rows whose
    identifier is that of [f]; identifiers being unique, these are the
    edges of the old table other than [f]. *)
Theorem unfollow_by_lookup (a b : string) (w : World) :
  calm 2 (pending w) →
  let res := FollowService.unfollowUser (mkFollowRequest a b) w in
  match prisma.follow.lookup a b (follows w) with
  | None =>
      ¬ edge_exists a b w
      ∧ res.1 = Rejected (createError 404 "Follow relationship not found"
                                      ErrorCodes.FOLLOW_NOT_FOUND)
      ∧ tables res.2 = tables w
  | Some f =>
      f ∈ follows w
      ∧ Follow.pair f = (a, b)
      ∧ res.1 = Resolved ()
      ∧ tables res.2
        = (users w, filter (λ g, Follow.id g ≠ Follow.id f) (follows w))
      ∧ (unique_ids w → ∀ g, g ∈ follows res.2 ↔ g ∈ follows w ∧ g ≠ f)
  end.
Proof.
  intros Hcalm. simpl.
  destruct (prisma.follow.lookup a b (follows w)) as [f|] eqn:Hf.
  - rewrite (unfollowUser_deletes _ _ _ f) by done. simpl.
    destruct (follow_lookup_spec _ _ _ _ Hf) as (Hin & Ha & Hb).
    split_and!; try done.
    + unfold Follow.pair. congruence.
    + intros Hids. by apply delete_exactly.
  - rewrite unfollowUser_not_found by (done || by apply calm_2 in Hcalm as [? _]).
    split_and!; try done.
    unfold edge_exists. rewrite follow_lookup_Some, Hf. by intros [? ?].
Qed.

Lemma unfollow_by_lookup_witness :
  (FollowService.unfollowUser (mkFollowRequest "u-alice" "u-bob")
     alice_follows_bob).1 = Resolved ()
  ∧ follows (FollowService.unfollowUser (mkFollowRequest "u-alice" "u-bob")
               alice_follows_bob).2 = []
  ∧ (FollowService.unfollowUser (mkFollowRequest "u-bob" "u-alice")
       alice_follows_bob).1
    = Rejected (createError 404 "Follow relationship not found"
                            ErrorCodes.FOLLOW_NOT_FOUND).
Proof.
  split_and!.
  - assert (calm 2 (pending alice_follows_bob)) as H by by_evaluation.
    by destruct (unfollow_by_lookup "u-alice" "u-bob" alice_follows_bob H)
      as (_ & _ & Hres & _).
  - reflexivity.
  - assert (calm 2 (pending alice_follows_bob)) as H by by_evaluation.
    by destruct (unfollow_by_lookup "u-bob" "u-alice" alice_follows_bob H)
      as (_ & Hres & _).
Defined.

(** ** Round trip *)

(** C5. Let [a] and [b] be distinct users that both exist, with no edge
    from [a] to [b], and let the next six client calls get through.  Then
    [followUser] resolves and, in the world it leaves, [isFollowing a b]
    resolves to [true]; in that same world [unfollowUser] resolves and,
    in the world it leaves, [isFollowing a b] resolves to [false]. *)
Theorem follow_unfollow_round_trip (a b : string) (w : World) :
  a ≠ b → user_exists a w → user_exists b w → ¬ edge_exists a b w →
  calm 6 (pending w) →
  let followed := FollowService.followUser (mkFollowRequest a b) w in
  let unfollowed := FollowService.unfollowUser (mkFollowRequest a b) followed.2 in
  followed.1 = Resolved (mkCreated (gen_uuid (id_seq w)))
  ∧ (FollowService.isFollowing a b followed.2).1 = Resolved true
  ∧ unfollowed.1 = Resolved ()
  ∧ (FollowService.isFollowing a b unfollowed.2).1 = Resolved false.
Proof.
  intros Hab Ha Hb Hedge Hcalm. simpl.
  rewrite followUser_creates by (done || by eapply calm_le, Hcalm; lia).
  simpl.
  set (row := new_row a b _).
  set (w1 := bump_id_seq _).
  assert (pending w1 = drop 3 (pending w)) as Hp
    by (by destruct w as [us fs n t [|o [|o' [|o'' p]]] c ts sc]).
  assert (calm 3 (pending w1)) as Hcalm1
    by (rewrite Hp; by apply (calm_drop 3 3)).
  assert (prisma.follow.lookup a b (follows w1) = Some row) as Hl.
  { unfold prisma.follow.lookup. simpl. rewrite filter_app, filter_none.
    - by rewrite filter_cons_True.
    - intros f Hf Hpair. apply Hedge. unfold edge_exists.
      rewrite <-Hpair. apply list_elem_of_fmap. eauto. }
  split_and!.
  - done.
  - rewrite isFollowing_calm by (by eapply calm_le, Hcalm1; lia).
    by rewrite Hl.
  - by rewrite (unfollowUser_deletes _ _ _ _ Hl)
      by (by eapply calm_le, Hcalm1; lia).
  - rewrite (unfollowUser_deletes _ _ _ _ Hl)
      by (by eapply calm_le, Hcalm1; lia).
    simpl. set (w2 := set_follows _ _).
    assert (pending w2 = drop 2 (pending w1)) as Hp2.
    { destruct w as [us fs n t [|o [|o' [|o'' [|o3 [|o4 p]]]]] c ts sc]; done. }
    rewrite isFollowing_calm
      by (rewrite Hp2; by apply (calm_drop 2 1)).
    simpl. f_equal. apply bool_decide_eq_false_2.
    rewrite <-follow_lookup_Some. intros (f & Hpair & Hf)%list_elem_of_fmap.
    subst w2. simpl in Hf.
    apply list_elem_of_filter in Hf as [Hid Hf].
    apply elem_of_app in Hf as [Hf|Hf].
    + apply Hedge. unfold edge_exists. rewrite Hpair.
      apply list_elem_of_fmap. eauto.
    + apply list_elem_of_singleton in Hf. by subst f.
Qed.

Lemma follow_unfollow_round_trip_witness :
  (FollowService.isFollowing "u-alice" "u-bob" alice_follows_bob).1
  = Resolved true
  ∧ (FollowService.isFollowing "u-alice" "u-bob"
       (FollowService.unfollowUser (mkFollowRequest "u-alice" "u-bob")
          alice_follows_bob).2).1
    = Resolved false.
Proof.
  destruct (follow_unfollow_round_trip "u-alice" "u-bob" seeded)
    as (_ & Htrue & _ & Hfalse); [done|by_evaluation..|].
  split; [exact Htrue|exact Hfalse].
Defined.

(** ** Reads against an unknown user *)

(** C7 as written fails for [isFollowing]: against a user identifier
    without a row it resolves to [false]; it does not reject. *)
Lemma isFollowing_unknown_user_resolves :
  ¬ user_exists "u-ghost" seeded
  ∧ FollowService.isFollowing "u-ghost" "u-bob" seeded = (Resolved false, seeded).
Proof. split; [by_evaluation|reflexivity]. Qed.

(** C7, amended.  Let [u] have no user row and let the next client call
    get through.  Then [getFollowers], [getFollowing], [getFollowerCount]
    and [getFollowingCount] reject with [USER_NOT_FOUND] (status 404).
    [isFollowing] makes no existence check: with [u] at either end it
    resolves, and to [false] when the foreign keys hold. *)
Theorem reads_of_unknown_user (u : string) (w : World) :
  ¬ user_exists u w → calm 1 (pending w) →
  (∀ p, (FollowService.getFollowers u p w).1 = Rejected user_not_found)
  ∧ (∀ p, (FollowService.getFollowing u p w).1 = Rejected user_not_found)
  ∧ (FollowService.getFollowerCount u w).1 = Rejected user_not_found
  ∧ (FollowService.getFollowingCount u w).1 = Rejected user_not_found
  ∧ (∀ v, ∃ r1 r2,
       (FollowService.isFollowing u v w).1 = Resolved r1
       ∧ (FollowService.isFollowing v u w).1 = Resolved r2
       ∧ (referential w → r1 = false ∧ r2 = false)).
Proof.
  intros Hu Hcalm.
  assert (prisma.user.lookup u (users w) = None) as Hl.
  { apply eq_None_not_Some. by rewrite <-user_lookup_Some. }
  unfold FollowService.getFollowers, FollowService.getFollowing,
    FollowService.getFollowerCount, FollowService.getFollowingCount,
    Promise.await.
  rewrite !user_findUnique_calm, !Hl by done.
  split_and!; try done.
  intros v. rewrite !isFollowing_calm by done. do 2 eexists.
  split_and!; [done..|].
  intros Href.
  split; apply bool_decide_eq_false_2; rewrite <-follow_lookup_Some;
    intros (f & Hpair & Hf)%list_elem_of_fmap;
    destruct (referential_elem_of _ _ Href Hf) as [Hr1 Hr2];
    unfold Follow.pair in Hpair; simplify_eq; done.
Qed.

Lemma reads_of_unknown_user_witness :
  (FollowService.getFollowerCount "u-ghost" alice_follows_bob).1
  = Rejected user_not_found
  ∧ (FollowService.getFollowers "u-ghost" (mkPagination 20 0)
       alice_follows_bob).1
    = Rejected user_not_found.
Proof.
  destruct (reads_of_unknown_user "u-ghost" alice_follows_bob)
    as (Hfollowers & _ & Hcount & _); [by_evaluation..|].
  split; [exact Hcount|exact (Hfollowers _)].
Defined.

(** ** Ordered pages *)

Section order_by_facts.
Context {A : Type} (ahead : A → A → bool).

Lemma insert_row_perm x l : insert_row ahead x l ≡ₚ x :: l.
Proof.
  induction l as [|y l IH]; simpl; [done|].
  destruct (ahead y x); [|done].
  rewrite IH. apply Permutation_swap.
Qed.

Lemma order_by_perm l : order_by ahead l ≡ₚ l.
Proof.
  induction l as [|x l IH]; simpl; [done|].
  by rewrite insert_row_perm, IH.
Qed.
End order_by_facts.

(** A scan comes across every row once. *)
Lemma visit_n_perm {A} n scan (rows : list A) :
  length rows = n → visit_n n scan rows ≡ₚ rows.
Proof.
  revert scan rows. induction n as [|n IH]; intros scan rows Hn; simpl.
  - by apply nil_length_inv in Hn as ->.
  - assert (hd 0 scan mod length rows < length rows) as Hi
      by (apply Nat.mod_upper_bound; lia).
    destruct (lookup_lt_is_Some_2 rows _ Hi) as [x Hx]. rewrite Hx.
    rewrite IH.
    + symmetry. by apply delete_Permutation.
    + rewrite length_delete by eauto. lia.
Qed.

Lemma visit_perm {A} scan (rows : list A) : visit scan rows ≡ₚ rows.
Proof. by apply visit_n_perm. Qed.

(** The empty scan reads the rows as they are. *)
Lemma visit_nil {A} (rows : list A) : visit [] rows = rows.
Proof.
  unfold visit. induction rows as [|x rows IH]; [done|].
  cbn [visit_n hd tl length]. rewrite Nat.Div0.mod_0_l. simpl.
  by rewrite IH.
Qed.

(** Every arrangement of the rows is the visit of some scan. *)
Lemma visit_any {A} (rows arranged : list A) :
  arranged ≡ₚ rows → ∃ scan, visit scan rows = arranged.
Proof.
  revert rows. induction arranged as [|x arranged IH]; intros rows Hperm.
  - apply Permutation_nil_l in Hperm. subst rows. by exists [].
  - assert (x ∈ rows) as Hx by (rewrite <-Hperm; left).
    apply list_elem_of_lookup_1 in Hx as [i Hi].
    pose proof (lookup_lt_Some _ _ _ Hi) as Hlt.
    assert (arranged ≡ₚ delete i rows) as Hrest.
    { apply (inj (cons x)). rewrite Hperm. by apply delete_Permutation. }
    destruct (IH _ Hrest) as [scan Hscan]. exists (i :: scan).
    unfold visit in *. destruct (length rows) as [|n] eqn:Hlen; [lia|].
    cbn [visit_n hd tl]. rewrite Hlen, Nat.mod_small, Hi by done.
    f_equal. rewrite <-Hscan. f_equal.
    rewrite length_delete by eauto. lia.
Qed.

Lemma insert_row_sorted x l :
  StronglySorted not_older l →
  StronglySorted not_older (insert_row createdAt_desc x l).
Proof.
  induction 1 as [|y l Hl IH Hy]; simpl.
  - by repeat constructor.
  - unfold createdAt_desc at 1. case_bool_decide as Hxy.
    + constructor; [done|].
      rewrite insert_row_perm. constructor; [|done].
      unfold not_older. lia.
    + constructor; [by constructor|].
      constructor; [unfold not_older; lia|].
      eapply Forall_impl; [exact Hy|].
      unfold not_older. intros; simpl in *. lia.
Qed.

Lemma order_by_sorted l :
  StronglySorted not_older (order_by createdAt_desc l).
Proof.
  induction l as [|x l IH]; simpl; [constructor|by apply insert_row_sorted].
Qed.

(** Rows with pairwise distinct creation times have one order only in
    which none comes before a more recent one. *)
Lemma sorted_unique (l1 l2 : list Follow.t) :
  NoDup (Follow.createdAt <$> l1) → l1 ≡ₚ l2 →
  StronglySorted not_older l1 → StronglySorted not_older l2 → l1 = l2.
Proof.
  revert l2. induction l1 as [|x l1 IH]; intros l2 Hnd Hperm Hs1 Hs2.
  - by apply Permutation_nil_l in Hperm.
  - destruct l2 as [|y l2]; [by apply Permutation_nil_r in Hperm|].
    simpl in Hnd. apply NoDup_cons in Hnd as [Hx Hnd].
    apply StronglySorted_inv in Hs1 as [Hs1 Hx1].
    apply StronglySorted_inv in Hs2 as [Hs2 Hy2].
    rewrite Forall_forall in Hx1, Hy2.
    assert (x = y) as <-.
    { assert (x ∈ y :: l2) as Hxin by (rewrite <-Hperm; left).
      assert (y ∈ x :: l1) as Hyin by (rewrite Hperm; left).
      apply elem_of_cons in Hxin as [?|Hxin]; [done|].
      apply elem_of_cons in Hyin as [?|Hyin]; [done|].
      exfalso. apply Hx.
      specialize (Hx1 _ Hyin). specialize (Hy2 _ Hxin).
      unfold not_older in *.
      replace (Follow.createdAt x) with (Follow.createdAt y) by lia.
      apply list_elem_of_fmap. eauto. }
    f_equal. apply IH; [done| |done..].
    by apply (inj (cons x)).
Qed.

(** A list in which no row comes before a more recent one is left as
    it is. *)
Lemma order_by_sorted_id l :
  StronglySorted not_older l → order_by createdAt_desc l = l.
Proof.
  induction 1 as [|x l Hl IH Hx]; simpl; [done|]. rewrite IH.
  destruct l as [|y l]; simpl; [done|].
  apply Forall_cons in Hx as [Hy _]. unfold createdAt_desc, not_older in *.
  by rewrite bool_decide_eq_false_2 by lia.
Qed.

(** Among rows of equal creation time every order can come out: each
    arrangement of the rows in which none comes before a more recent
    one is what [ORDER BY] yields under some scan. *)
Lemma order_by_any_tie_order (rows arranged : list Follow.t) :
  arranged ≡ₚ rows → StronglySorted not_older arranged →
  ∃ scan, order_by createdAt_desc (visit scan rows) = arranged.
Proof.
  intros [scan <-]%visit_any Hsorted. exists scan.
  by apply order_by_sorted_id.
Qed.

(** With pairwise distinct creation times the order of the scan does
    not show. *)
Lemma order_by_visit_distinct scan (rows : list Follow.t) :
  NoDup (Follow.createdAt <$> rows) →
  order_by createdAt_desc (visit scan rows) = order_by createdAt_desc rows.
Proof.
  intros Hnd. apply sorted_unique.
  - by rewrite order_by_perm, visit_perm.
  - by rewrite !order_by_perm, visit_perm.
  - apply order_by_sorted.
  - apply order_by_sorted.
Qed.

(** The join of [include]: under the foreign keys no row is dropped. *)
Lemma include_total inc us rows :
  (∀ f, f ∈ rows → related inc f ∈ User.id <$> us) →
  Forall2
    (λ f prof,
       Profile.id prof = related inc f
       ∧ ∃ usr, usr ∈ us ∧ prof = Profile.of_user usr)
    rows
    (snd <$> omap (λ f, (λ u, (f, Profile.of_user u))
                          <$> prisma.user.lookup (related inc f) us) rows).
Proof.
  induction rows as [|f rows IH]; intros Hrows; simpl; [constructor|].
  destruct (proj1 (user_lookup_Some _ _) (Hrows f ltac:(left))) as [usr Husr].
  rewrite Husr. simpl. constructor.
  - unfold prisma.user.lookup in Husr. apply head_Some in Husr as [l Hl].
    assert (usr ∈ filter (λ u, User.id u = related inc f) us) as Hin
      by (rewrite Hl; left).
    apply list_elem_of_filter in Hin as [? ?]. eauto.
  - apply IH. intros g Hg. apply Hrows. by right.
Qed.

(** C6 as written fails in its last part: the query orders by
    [createdAt] alone and names no tiebreak.  The two edges that lead to
    carol have the same creation time.  No table changes between the two
    calls, and yet the first page and then the second page of carol's
    followers both hold alice: bob is listed on neither. *)
Lemma followers_pages_overlap_on_ties :
  let first :=
    FollowService.getFollowers "u-carol" (mkPagination 1 0) rescanned in
  let second :=
    FollowService.getFollowers "u-carol" (mkPagination 1 1) first.2 in
  Follow.createdAt alice_to_carol = Follow.createdAt bob_to_carol
  ∧ tables first.2 = tables rescanned
  ∧ first.1 = Resolved (mkListing 2 [Profile.of_user alice])
  ∧ second.1 = Resolved (mkListing 2 [Profile.of_user alice]).
Proof. split_and!; reflexivity. Qed.

(** C6, amended.  Let [u] exist, let the foreign keys hold, let the
    pagination be validated ([1 ≤ limit ≤ 100], [0 ≤ offset]) and let the
    next three client calls get through.  Then [getFollowers] resolves.
    Its [total] is the number of edges whose followee is [u], whatever
    the pagination.  Its [items] are the profiles of the followers of the
    edges left after skipping [offset] and taking [limit] of these edges
    in an order [ordered] in which no edge comes before a more recent
    one; there are at most [limit] of them.  Nothing fixes the order
    among edges of equal creation time. *)
Theorem followers_page (u : string) (p : Pagination) (w : World) :
  user_exists u w → referential w →
  (1 ≤ limit p ≤ 100)%Z → (0 ≤ offset p)%Z →
  calm 3 (pending w) →
  let edges := filter (λ f, Follow.followeeId f = u) (follows w) in
  ∃ ordered page_items,
    ordered ≡ₚ edges
    ∧ StronglySorted not_older ordered
    ∧ (FollowService.getFollowers u p w).1
      = Resolved (mkListing (Z.of_nat (length edges)) page_items)
    ∧ Forall2
        (λ f prof,
           Profile.id prof = Follow.followerId f
           ∧ ∃ usr, usr ∈ users w ∧ prof = Profile.of_user usr)
        (take (Z.to_nat (limit p)) (drop (Z.to_nat (offset p)) ordered))
        page_items
    ∧ (Z.of_nat (length page_items) ≤ limit p)%Z.
Proof.
  intros Hu Href Hlimit Hoffset Hcalm. simpl.
  set (edges := filter (λ f, Follow.followeeId f = u) (follows w)).
  set (ordered :=
         order_by createdAt_desc
           (visit (scan (called (called (called w)))) edges)).
  set (rows := take (Z.to_nat (limit p)) (drop (Z.to_nat (offset p)) ordered)).
  set (page_items :=
         snd <$> omap (λ f, (λ u, (f, Profile.of_user u))
                              <$> prisma.user.lookup
                                    (related IncludeFollower f) (users w))
                      rows).
  assert (ordered ≡ₚ edges) as Hperm
    by (subst ordered; by rewrite order_by_perm, visit_perm).
  assert (Forall2
            (λ f prof,
               Profile.id prof = Follow.followerId f
               ∧ ∃ usr, usr ∈ users w ∧ prof = Profile.of_user usr)
            rows page_items) as Hitems.
  { apply (include_total IncludeFollower). intros f Hf. simpl.
    apply (referential_elem_of _ _ Href).
    assert (f ∈ edges) as Hin.
    { rewrite <-Hperm. by eapply subseteq_drop, subseteq_take. }
    by apply list_elem_of_filter in Hin as [_ ?]. }
  exists ordered, page_items. split_and!.
  - exact Hperm.
  - apply order_by_sorted.
  - apply calm_3 in Hcalm as [[H1 H2]%calm_2 H3].
    unfold FollowService.getFollowers, Promise.await.
    rewrite user_findUnique_calm by done.
    destruct (proj1 (user_lookup_Some _ _) Hu) as [usr ->].
    unfold Promise.all. rewrite follow_count_calm by done.
    unfold prisma.follow.findMany. rewrite store_call_calm by done.
    reflexivity.
  - exact Hitems.
  - apply Forall2_length in Hitems. rewrite <-Hitems.
    subst rows. rewrite length_take. lia.
Qed.

Lemma followers_page_witness :
  (Follow.createdAt <$> follows carol_followed = [1021; 1042]%Z)
  ∧ (FollowService.getFollowers "u-carol" (mkPagination 1 0) carol_followed).1
    = Resolved (mkListing 2 [Profile.of_user bob])
  ∧ (FollowService.getFollowers "u-carol" (mkPagination 1 1) carol_followed).1
    = Resolved (mkListing 2 [Profile.of_user alice]).
Proof.
  destruct (followers_page "u-carol" (mkPagination 1 0) carol_followed)
    as (ordered & page_items & _ & _ & Hres & _);
    [by_evaluation|by_evaluation|simpl; lia|simpl; lia|by_evaluation|].
  split_and!; reflexivity.
Defined.

(** ** What the service rejects with *)

Section rejections.
Context (P : thrown → Prop).

Lemma rejects_resolve {A} (a : A) : rejects_within P (Promise.resolve a).
Proof. by intros w e. Qed.

Lemma rejects_reject {A} e : P e → rejects_within P (@Promise.reject A e).
Proof. intros He w e' [= <-]. done. Qed.

Lemma rejects_await {A B} (p : Promise A) (k : A → Promise B) :
  rejects_within P p → (∀ a, rejects_within P (k a)) →
  rejects_within P (Promise.await p k).
Proof.
  intros Hp Hk w e. unfold Promise.await.
  specialize (Hp w). destruct (p w) as [[a|e'] w']; simpl in *.
  - apply Hk.
  - intros [= <-]. by apply Hp.
Qed.

Lemma rejects_all {A B} (p : Promise A) (q : Promise B) :
  rejects_within P p → rejects_within P q →
  rejects_within P (Promise.all p q).
Proof.
  intros Hp Hq w e. unfold Promise.all.
  specialize (Hp w). destruct (p w) as [ra w1]; simpl in *.
  specialize (Hq w1). destruct (q w1) as [rb w2]; simpl in *.
  destruct ra, rb; simpl; intros [= <-]; auto.
Qed.

Lemma rejects_try_catch {A} (p : Promise A) (h : thrown → Promise A) :
  rejects_within P p → (∀ e, P e → rejects_within P (h e)) →
  rejects_within P (Promise.try_catch p h).
Proof.
  intros Hp Hh w e. unfold Promise.try_catch.
  specialize (Hp w). destruct (p w) as [[a|e'] w']; simpl in *; [done|].
  apply Hh. by apply Hp.
Qed.

Lemma rejects_store_call {A} (run : World → outcome A * World) :
  (∀ msg, P (JsError msg)) → rejects_within P run →
  rejects_within P (store_call run).
Proof.
  intros HP Hrun [us fs n t [|[msg|] p] c ts sc] e; unfold store_call; simpl.
  - apply Hrun.
  - intros [= <-]. apply HP.
  - apply Hrun.
Qed.
End rejections.

Lemma rejects_client_call {A} (run : World → outcome A * World) :
  (∀ w, match (run w).1 with Rejected (JsError _) | Resolved _ => True
                        | Rejected _ => False end) →
  rejects_within not_internal_AppError (store_call run).
Proof.
  intros Hrun. apply rejects_store_call; [done|].
  intros w e He. specialize (Hrun w). rewrite He in Hrun. by destruct e.
Qed.

(** Splits a method into its awaited calls and examines each rejection. *)
Ltac rejections :=
  repeat first
    [ apply rejects_resolve
    | apply rejects_reject; done
    | apply rejects_await; [|intros ?]
    | apply rejects_all
    | apply rejects_client_call; intros ?; simpl; repeat case_match; done
    | match goal with
      | |- rejects_within _ (match ?x with _ => _ end) => destruct x
      | |- rejects_within _ (if ?x then _ else _) => destruct x
      | |- rejects_within _ (let '(_, _) := ?x in _) => destruct x
      end ].

Lemma service_rejections :
  (∀ r, rejects_within not_internal_AppError (FollowService.followUser r))
  ∧ (∀ r, rejects_within not_internal_AppError (FollowService.unfollowUser r))
  ∧ (∀ u p, rejects_within not_internal_AppError (FollowService.getFollowers u p))
  ∧ (∀ u p, rejects_within not_internal_AppError (FollowService.getFollowing u p))
  ∧ (∀ u, rejects_within not_internal_AppError (FollowService.getFollowerCount u))
  ∧ (∀ u, rejects_within not_internal_AppError (FollowService.getFollowingCount u))
  ∧ (∀ a b, rejects_within not_internal_AppError (FollowService.isFollowing a b)).
Proof.
  split_and!; intros;
    unfold FollowService.followUser, FollowService.unfollowUser,
      FollowService.getFollowers, FollowService.getFollowing,
      FollowService.getFollowerCount, FollowService.getFollowingCount,
      FollowService.isFollowing, prisma.user.findUnique,
      prisma.follow.findUnique, prisma.follow.count, prisma.follow.findMany,
      prisma.follow.delete, prisma.follow.create;
    rejections.
  apply rejects_try_catch; rejections.
  intros e He. rejections.
Qed.

(** ** Internal failures at the HTTP boundary *)

Lemma errorHandler_logs err w :
  LogSerialized err ∈ console (errorHandler err w).2.
Proof.
  unfold errorHandler.
  destruct err; simpl; rewrite ?elem_of_app, ?list_elem_of_singleton; auto.
Qed.

(** A controller that awaits one service method and then answers with a
    status other than 500. *)
Lemma asyncHandler_internal {A} (svc : Promise A) (answer : A → Response) w :
  rejects_within not_internal_AppError svc →
  (∀ a, status (answer a) ≠ 500%Z) →
  let res := asyncHandler (let! a := svc in Promise.resolve (answer a)) w in
  status res.1 = 500%Z →
  body res.1 = internal_body
  ∧ ∃ e, instanceof_AppError e = false ∧ LogSerialized e ∈ console res.2.
Proof.
  intros Hsvc Hanswer. simpl. unfold asyncHandler, Promise.await.
  specialize (Hsvc w). destruct (svc w) as [[a|e] w']; simpl in *.
  - intros Hst. by apply Hanswer in Hst.
  - specialize (Hsvc e eq_refl).
    pose proof (errorHandler_logs e w') as Hlog.
    destruct e as [sc m c|m|v]; simpl in *; [done| |]; intros _.
    + split; [done|]. by exists (JsError m).
    + split; [done|]. by exists (NonError v).
Qed.

(** C8.  The claim asks that an internal failure reaches the client as a
    generic message that does not depend on what went wrong.
    [getAllUsers] does otherwise: its controller wraps the error of the
    store into an [AppError] of status 500 that carries the store's own
    message, and [errorHandler] sends the message of an [AppError] to the
    client.  Two runs that differ in the store error alone answer with
    different bodies, each holding the message of its store error. *)
Lemma getAllUsers_forwards_store_message :
  (serve ListAllUsers refused).1
  = mkResponse 500 (error_body "connect ECONNREFUSED 10.0.0.5:5432"
                               (Some "INTERNAL_ERROR"))
  ∧ (serve ListAllUsers denied).1
    = mkResponse 500
        (error_body "password authentication failed for user follow_admin"
                    (Some "INTERNAL_ERROR"))
  ∧ body (serve ListAllUsers refused).1 ≠ body (serve ListAllUsers denied).1.
Proof. split_and!; [reflexivity..|discriminate]. Qed.

(** X25.  The other operations keep the detail on the server.  For
    every operation other than [ListAllUsers] and every world, an answer of
    status 500 carries the one generic body ([success: false], "Internal
    server error", [INTERNAL_ERROR]); what went wrong is a thrown value
    that is not an [AppError], and it has been written to the console. *)
Theorem internal_failure_body_is_generic (op : Operation) (w : World) :
  op ≠ ListAllUsers →
  status (serve op w).1 = 500%Z →
  body (serve op w).1 = internal_body
  ∧ ∃ e, instanceof_AppError e = false
         ∧ LogSerialized e ∈ console (serve op w).2.
Proof.
  destruct service_rejections as (Hf & Hu & Hfs & Hfg & Hfc & Hgc & Hi).
  intros Hop.
  destruct op as [r|r|u p|u p| |u|u|[a|] [b|]]; simpl; try done;
    unfold followController.follow, followController.unfollow,
      followController.getFollowers, followController.getFollowing,
      followController.getFollowerCount, followController.getFollowingCount,
      followController.isFollowing;
    try (apply asyncHandler_internal; by auto).
Qed.

Lemma internal_failure_body_is_generic_witness :
  body (serve (FollowerCount "u-bob") refused).1 = internal_body
  ∧ body (serve (FollowerCount "u-bob") denied).1 = internal_body.
Proof.
  split.
  - by destruct (internal_failure_body_is_generic (FollowerCount "u-bob") refused)
      as [Hbody _].
  - by destruct (internal_failure_body_is_generic (FollowerCount "u-bob") denied)
      as [Hbody _].
Defined.

(** ** The schema constraints are invariants of the two writes *)

Lemma gen_uuid_inj n m : gen_uuid n = gen_uuid m → n = m.
Proof.
  unfold gen_uuid. intros H%(inj (String.app _)). by apply (inj pretty) in H.
Qed.

Lemma NoDup_fmap_filter {A B} (key : A → B) (P : A → Prop)
    `{∀ x, Decision (P x)} (l : list A) :
  NoDup (key <$> l) → NoDup (key <$> filter P l).
Proof.
  induction l as [|x l IH]; simpl; [done|].
  rewrite NoDup_cons. intros [Hx Hl]. rewrite filter_cons.
  case_decide; [|by apply IH].
  simpl. apply NoDup_cons. split; [|by apply IH].
  intros (y & Hy & Hin)%list_elem_of_fmap. apply Hx.
  apply list_elem_of_filter in Hin as [_ Hin].
  rewrite Hy. apply list_elem_of_fmap. eauto.
Qed.

Lemma create_resolved a b w row w' :
  prisma.follow.create a b w = (Resolved row, w') →
  a ≠ b ∧ ¬ edge_exists a b w ∧ user_exists a w ∧ user_exists b w
  ∧ row = new_row a b (called w)
  ∧ server w' = (users w, follows w ++ [row], S (id_seq w)).
Proof.
  destruct w as [us fs n t [|[msg|] p] c ts sc];
    unfold prisma.follow.create, store_call; simpl;
    repeat case_decide; intros [= <- <-]; unfold edge_exists, user_exists;
    simpl; intuition.
Qed.

Lemma create_rejected a b w e w' :
  prisma.follow.create a b w = (Rejected e, w') → server w' = server w.
Proof.
  destruct w as [us fs n t [|[msg|] p] c ts sc];
    unfold prisma.follow.create, store_call; simpl;
    repeat case_decide; by intros [= <- <-].
Qed.

(** Closes a case in which the run has settled without a write. *)
Ltac settled :=
  unfold Promise.reject, Promise.resolve, server in *; simplify_eq/=;
  congruence.

Lemma followUser_cases a b w :
  let w' := (FollowService.followUser (mkFollowRequest a b) w).2 in
  server w' = server w
  ∨ (a ≠ b ∧ ¬ edge_exists a b w ∧ user_exists a w ∧ user_exists b w
     ∧ ∃ t,
         server w'
         = (users w, follows w ++ [Follow.mk (gen_uuid (id_seq w)) a b t],
            S (id_seq w))).
Proof.
  simpl. destruct (FollowService.followUser _ w) as [o w'] eqn:Hrun; simpl.
  unfold FollowService.followUser in Hrun; simpl in Hrun.
  case_decide; [left; settled|].
  unfold Promise.await at 1 in Hrun.
  pose proof (preserves_all _ _ (preserves_user_findUnique a)
                (preserves_user_findUnique b) w) as Hall.
  destruct (Promise.all _ _ w) as [[[ua ub]|e] w1]; simpl in Hall;
    [|left; settled].
  destruct (negb (bool_decide (is_Some ua))); [left; settled|].
  destruct (negb (bool_decide (is_Some ub))); [left; settled|].
  unfold Promise.try_catch, Promise.await in Hrun.
  destruct (prisma.follow.create a b w1) as [[row|e] w2] eqn:Hc.
  - right. apply create_resolved in Hc as (? & ? & ? & ? & -> & Hw2).
    unfold Promise.resolve, server, edge_exists, user_exists, new_row in *.
    simplify_eq/=. split_and!; try congruence.
    exists (now (called w1)). simpl. congruence.
  - left. apply create_rejected in Hc.
    destruct (instanceof_Error e && includes (message_of e) _); settled.
Qed.

Lemma unfollowUser_cases a b w :
  let w' := (FollowService.unfollowUser (mkFollowRequest a b) w).2 in
  server w' = server w
  ∨ ∃ id, server w'
          = (users w, filter (λ f, Follow.id f ≠ id) (follows w), id_seq w).
Proof.
  simpl. destruct (FollowService.unfollowUser _ w) as [o w'] eqn:Hrun; simpl.
  unfold FollowService.unfollowUser in Hrun; simpl in Hrun.
  unfold Promise.await at 1 in Hrun.
  pose proof (preserves_follow_findUnique a b w) as Hfind.
  destruct (prisma.follow.findUnique a b w) as [[[f|]|e] w1];
    simpl in Hfind; [|left; settled..].
  unfold Promise.await, prisma.follow.delete in Hrun.
  destruct w1 as [us fs n t [|[msg|] p] c ts sc]; unfold store_call in Hrun;
    simpl in Hrun; try (left; settled);
    (destruct (head (filter _ fs)); simpl in Hrun;
     [right|left; settled]);
    exists (Follow.id f);
    unfold server, Promise.resolve in *; by simplify_eq/=.
Qed.

Lemma consistent_server w w' :
  users w' = users w → follows w' = follows w → id_seq w' = id_seq w →
  consistent w → consistent w'.
Proof.
  intros Hu Hf Hn [? ? ? ? ?].
  split; unfold unique_ids, unique_pairs, referential, no_self_edges,
    fresh_ids, user_exists in *; rewrite ?Hu, ?Hf, ?Hn; done.
Qed.

(** The constraints survive [followUser], whatever it is asked and
    whatever the environment does. *)
Lemma followUser_consistent request w :
  consistent w → consistent (FollowService.followUser request w).2.
Proof.
  destruct request as [a b]. intros Hw.
  destruct (followUser_cases a b w) as [Hs|(Hab & Hedge & Ha & Hb & t & Hs)];
    simpl in Hs; unfold server in Hs; simplify_eq.
  { by apply (consistent_server w). }
  destruct Hw as [Hids Hpairs Href Hself Hfresh].
  split; unfold unique_ids, unique_pairs, referential, no_self_edges,
    fresh_ids, user_exists, edge_exists in *;
    repeat match goal with H : _ = _ |- _ => rewrite H; clear H end.
  - rewrite fmap_app. apply NoDup_app. split_and!; [done| |apply NoDup_singleton].
    intros x Hx ->%list_elem_of_singleton. by apply (Hfresh (id_seq w)).
  - rewrite fmap_app. apply NoDup_app. split_and!; [done| |apply NoDup_singleton].
    by intros x Hx ->%list_elem_of_singleton.
  - apply Forall_app. split; [done|]. by repeat constructor.
  - apply Forall_app. split; [done|]. by repeat constructor.
  - intros k Hk. rewrite fmap_app. intros [Hin|Hin]%elem_of_app.
    + apply (Hfresh k); [lia|done].
    + apply list_elem_of_singleton in Hin. simpl in Hin.
      apply gen_uuid_inj in Hin. lia.
Qed.

(** The constraints survive [unfollowUser]. *)
Lemma unfollowUser_consistent request w :
  consistent w → consistent (FollowService.unfollowUser request w).2.
Proof.
  destruct request as [a b]. intros Hw.
  destruct (unfollowUser_cases a b w) as [Hs|(id & Hs)];
    simpl in Hs; unfold server in Hs; simplify_eq.
  { by apply (consistent_server w). }
  destruct Hw as [Hids Hpairs Href Hself Hfresh].
  split; unfold unique_ids, unique_pairs, referential, no_self_edges,
    fresh_ids, user_exists, edge_exists in *;
    repeat match goal with H : _ = _ |- _ => rewrite H; clear H end.
  - by apply NoDup_fmap_filter.
  - by apply NoDup_fmap_filter.
  - apply Forall_forall. intros f [_ Hf]%list_elem_of_filter.
    rewrite Forall_forall in Href. by apply Href.
  - apply Forall_forall. intros f [_ Hf]%list_elem_of_filter.
    rewrite Forall_forall in Hself. by apply Hself.
  - intros k Hk (f & Hid & [_ Hf]%list_elem_of_filter)%list_elem_of_fmap.
    apply (Hfresh k Hk). rewrite Hid. apply list_elem_of_fmap. eauto.
Qed.

Lemma seeded_consistent : consistent seeded.
Proof.
  split; unfold unique_ids, unique_pairs, referential, no_self_edges,
    fresh_ids; simpl; try by constructor.
  intros k _. apply not_elem_of_nil.
Qed.

Lemma alice_follows_bob_consistent : consistent alice_follows_bob.
Proof. apply followUser_consistent, seeded_consistent. Qed.

(** * Further properties of the service *)

(** ** Listings and counts when the store answers *)

Lemma getFollowers_calm u p w :
  user_exists u w → calm 3 (pending w) →
  FollowService.getFollowers u p w
  = (Resolved
       (mkListing (Z.of_nat (length (followers_of u w)))
          (joined IncludeFollower (users w)
             (window (offset p) (limit p)
                (order_by createdAt_desc
                   (visit (scan (called (called (called w))))
                      (followers_of u w)))))),
     called (called (called w))).
Proof.
  intros Hu [[H1 H2]%calm_2 H3]%calm_3.
  unfold FollowService.getFollowers, Promise.await.
  rewrite user_findUnique_calm by done.
  destruct (proj1 (user_lookup_Some _ _) Hu) as [usr ->].
  unfold Promise.all. rewrite follow_count_calm by done.
  unfold prisma.follow.findMany. by rewrite store_call_calm by done.
Qed.

Lemma getFollowing_calm u p w :
  user_exists u w → calm 3 (pending w) →
  FollowService.getFollowing u p w
  = (Resolved
       (mkListing (Z.of_nat (length (following_of u w)))
          (joined IncludeFollowee (users w)
             (window (offset p) (limit p)
                (order_by createdAt_desc
                   (visit (scan (called (called (called w))))
                      (following_of u w)))))),
     called (called (called w))).
Proof.
  intros Hu [[H1 H2]%calm_2 H3]%calm_3.
  unfold FollowService.getFollowing, Promise.await.
  rewrite user_findUnique_calm by done.
  destruct (proj1 (user_lookup_Some _ _) Hu) as [usr ->].
  unfold Promise.all. rewrite follow_count_calm by done.
  unfold prisma.follow.findMany. by rewrite store_call_calm by done.
Qed.

Lemma getFollowerCount_calm u w :
  user_exists u w → calm 2 (pending w) →
  FollowService.getFollowerCount u w
  = (Resolved (Z.of_nat (length (followers_of u w))), called (called w)).
Proof.
  intros Hu [H1 H2]%calm_2.
  unfold FollowService.getFollowerCount, Promise.await.
  rewrite user_findUnique_calm by done.
  destruct (proj1 (user_lookup_Some _ _) Hu) as [usr ->].
  by rewrite follow_count_calm by done.
Qed.

Lemma getFollowingCount_calm u w :
  user_exists u w → calm 2 (pending w) →
  FollowService.getFollowingCount u w
  = (Resolved (Z.of_nat (length (following_of u w))), called (called w)).
Proof.
  intros Hu [H1 H2]%calm_2.
  unfold FollowService.getFollowingCount, Promise.await.
  rewrite user_findUnique_calm by done.
  destruct (proj1 (user_lookup_Some _ _) Hu) as [usr ->].
  by rewrite follow_count_calm by done.
Qed.

Lemma joined_total inc us rows :
  (∀ f, f ∈ rows → related inc f ∈ User.id <$> us) →
  length (joined inc us rows) = length rows.
Proof.
  intros H. symmetry. eapply Forall2_length, include_total, H.
Qed.

Lemma joined_app inc us rows1 rows2 :
  joined inc us (rows1 ++ rows2) = joined inc us rows1 ++ joined inc us rows2.
Proof. unfold joined. by rewrite omap_app, fmap_app. Qed.

Lemma window_elem_of {A} skip take_ (l : list A) x :
  x ∈ window skip take_ l → x ∈ l.
Proof. intros H. by eapply subseteq_drop, subseteq_take. Qed.

Lemma window_length {A} skip take_ (l : list A) :
  (0 ≤ skip)%Z → (0 ≤ take_)%Z →
  Z.of_nat (length (window skip take_ l))
  = Z.min take_ (Z.max 0 (Z.of_nat (length l) - skip)).
Proof.
  intros. unfold window. rewrite length_take, length_drop. lia.
Qed.

Lemma window_adjacent {A} skip take_ (l : list A) :
  (0 ≤ skip)%Z → (0 ≤ take_)%Z →
  window skip take_ l ++ window (skip + take_) take_ l
  = window skip (2 * take_) l.
Proof.
  intros. unfold window.
  replace (Z.to_nat (skip + take_)) with (Z.to_nat skip + Z.to_nat take_) by lia.
  replace (Z.to_nat (2 * take_)) with (Z.to_nat take_ + Z.to_nat take_) by lia.
  by rewrite <-drop_drop, take_take_drop.
Qed.

Lemma order_by_length {A} (ahead : A → A → bool) l :
  length (order_by ahead l) = length l.
Proof. apply Permutation_length, order_by_perm. Qed.

Lemma visit_length {A} scan (rows : list A) :
  length (visit scan rows) = length rows.
Proof. apply Permutation_length, visit_perm. Qed.

Lemma calm_called n w :
  calm (S n) (pending w) → calm n (pending (called w)).
Proof. by intros [_ ?]%calm_S. Qed.

Lemma calm_called3 n w :
  calm (3 + n) (pending w) →
  calm n (pending (called (called (called w)))).
Proof. intros H. by do 3 apply calm_called. Qed.

Lemma ordered_rows_referenced inc u skip take_ scan w f :
  referential w →
  f ∈ window skip take_
        (order_by createdAt_desc
           (visit scan
              (match inc with
               | IncludeFollower => followers_of u w
               | IncludeFollowee => following_of u w
               end))) →
  related inc f ∈ User.id <$> users w.
Proof.
  intros Href Hf%window_elem_of.
  rewrite order_by_perm, visit_perm in Hf.
  destruct inc; apply list_elem_of_filter in Hf as [_ Hf];
    by destruct (referential_elem_of _ _ Href Hf).
Qed.

(** X1.  [getFollowing] is the mirror image of [getFollowers].  Let [u]
    exist, let the foreign keys hold, let the pagination be validated
    and let the next three client calls get through.  Then the call
    resolves; [total] counts the edges whose follower is [u], whatever
    the pagination; [items] are the profiles of the followees of the
    edges in the window [offset], [limit] of an order [ordered] in which
    no edge comes before a more recent one; there are at most [limit] of
    them.  Nothing fixes the order among edges of equal creation time. *)
Theorem following_page (u : string) (p : Pagination) (w : World) :
  user_exists u w → referential w →
  (1 ≤ limit p ≤ 100)%Z → (0 ≤ offset p)%Z →
  calm 3 (pending w) →
  ∃ ordered page_items,
    ordered ≡ₚ following_of u w
    ∧ StronglySorted not_older ordered
    ∧ (FollowService.getFollowing u p w).1
      = Resolved (mkListing (Z.of_nat (length (following_of u w))) page_items)
    ∧ Forall2
        (λ f prof,
           Profile.id prof = Follow.followeeId f
           ∧ ∃ usr, usr ∈ users w ∧ prof = Profile.of_user usr)
        (window (offset p) (limit p) ordered) page_items
    ∧ (Z.of_nat (length page_items) ≤ limit p)%Z.
Proof.
  intros Hu Href Hlimit Hoffset Hcalm.
  set (ordered :=
         order_by createdAt_desc
           (visit (scan (called (called (called w)))) (following_of u w))).
  exists ordered,
    (joined IncludeFollowee (users w) (window (offset p) (limit p) ordered)).
  assert (∀ f, f ∈ window (offset p) (limit p) ordered →
               related IncludeFollowee f ∈ User.id <$> users w) as Hrows.
  { intros f Hf. by eapply (ordered_rows_referenced IncludeFollowee). }
  split_and!.
  - subst ordered. by rewrite order_by_perm, visit_perm.
  - apply order_by_sorted.
  - by rewrite getFollowing_calm.
  - by apply (include_total IncludeFollowee).
  - rewrite joined_total by done. rewrite window_length by lia. lia.
Qed.

Lemma following_page_witness :
  (Follow.createdAt <$> follows alice_following = [1021; 1042]%Z)
  ∧ (FollowService.getFollowing "u-alice" (mkPagination 1 0)
       alice_following).1
    = Resolved (mkListing 2 [Profile.of_user carol])
  ∧ (FollowService.getFollowing "u-alice" (mkPagination 20 0)
       alice_following).1
    = Resolved (mkListing 2 [Profile.of_user carol; Profile.of_user bob]).
Proof.
  destruct (following_page "u-alice" (mkPagination 1 0) alice_following)
    as (ordered & page_items & _ & _ & Hres & _);
    [by_evaluation|by_evaluation|simpl; lia|simpl; lia|by_evaluation|].
  split_and!; reflexivity.
Defined.

(** X2.  The size of a page.  With the foreign keys in force, a
    non-negative [limit] and [offset] and a store that answers, the
    number of [items] of [getFollowers] and of [getFollowing] is
    [min limit (max 0 (total - offset))]: a full page while enough edges
    are left, the remainder on the last page, and the empty list once
    [offset] has reached [total]. *)
Theorem listing_page_size (u : string) (p : Pagination) (w : World) :
  user_exists u w → referential w →
  (0 ≤ limit p)%Z → (0 ≤ offset p)%Z →
  calm 3 (pending w) →
  (∃ l, (FollowService.getFollowers u p w).1 = Resolved l
        ∧ Z.of_nat (length (items l))
          = Z.min (limit p) (Z.max 0 (total l - offset p)))
  ∧ (∃ l, (FollowService.getFollowing u p w).1 = Resolved l
          ∧ Z.of_nat (length (items l))
            = Z.min (limit p) (Z.max 0 (total l - offset p))).
Proof.
  intros Hu Href Hlimit Hoffset Hcalm. split; eexists.
  - rewrite getFollowers_calm by done. split; [done|]. simpl.
    rewrite joined_total.
    + by rewrite window_length, order_by_length, visit_length by done.
    + intros f Hf. by eapply (ordered_rows_referenced IncludeFollower).
  - rewrite getFollowing_calm by done. split; [done|]. simpl.
    rewrite joined_total.
    + by rewrite window_length, order_by_length, visit_length by done.
    + intros f Hf. by eapply (ordered_rows_referenced IncludeFollowee).
Qed.

Lemma listing_page_size_witness :
  (∃ l, (FollowService.getFollowers "u-carol" (mkPagination 5 1)
           stored_alice_first).1 = Resolved l
        ∧ length (items l) = 1)
  ∧ (∃ l, (FollowService.getFollowers "u-carol" (mkPagination 5 2)
             stored_alice_first).1 = Resolved l
          ∧ items l = []).
Proof.
  split.
  - destruct (listing_page_size "u-carol" (mkPagination 5 1) stored_alice_first)
      as [(l & Hl & Hsize) _];
      [by_evaluation|by_evaluation|simpl; lia|simpl; lia|by_evaluation|].
    exists l. split; [exact Hl|].
    vm_compute in Hl. injection Hl as <-. reflexivity.
  - destruct (listing_page_size "u-carol" (mkPagination 5 2) stored_alice_first)
      as [(l & Hl & Hsize) _];
      [by_evaluation|by_evaluation|simpl; lia|simpl; lia|by_evaluation|].
    exists l. split; [exact Hl|].
    vm_compute in Hl. injection Hl as <-. reflexivity.
Defined.

(** X3.  Adjacent pages fit together where no two edges tie.  Let [u]
    exist, let the edges that lead to [u] have pairwise distinct
    creation times and let the store answer nine client calls.  Asking
    [getFollowers] for the page [limit], [offset], then for the page
    [limit], [offset + limit], then for the double page [2 * limit],
    [offset], gives the same [total] three times, and the items of the
    double page are those of the first page followed by those of the
    second: while the tables do not change, successive pages neither
    overlap nor leave a gap. *)
Theorem follower_pages_are_adjacent (u : string) (l o : Z) (w : World) :
  user_exists u w → (0 ≤ l)%Z → (0 ≤ o)%Z →
  NoDup (Follow.createdAt <$> followers_of u w) →
  calm 9 (pending w) →
  let first := FollowService.getFollowers u (mkPagination l o) w in
  let second := FollowService.getFollowers u (mkPagination l (o + l)) first.2 in
  let both := FollowService.getFollowers u (mkPagination (2 * l) o) second.2 in
  ∃ a b,
    first.1 = Resolved a
    ∧ second.1 = Resolved b
    ∧ total b = total a
    ∧ both.1 = Resolved (mkListing (total a) (items a ++ items b)).
Proof.
  intros Hu Hl Ho Hdistinct Hcalm. simpl.
  rewrite (getFollowers_calm u _ w) by (done || by eapply calm_le, Hcalm; lia).
  simpl.
  set (w1 := called (called (called w))).
  assert (calm 6 (pending w1)) as Hcalm1 by by apply (calm_called3 6).
  rewrite (getFollowers_calm u _ w1) by (done || by eapply calm_le, Hcalm1; lia).
  simpl.
  set (w2 := called (called (called w1))).
  assert (calm 3 (pending w2)) as Hcalm2 by by apply (calm_called3 3).
  rewrite (getFollowers_calm u _ w2) by done.
  change (followers_of u w2) with (followers_of u w).
  change (followers_of u w1) with (followers_of u w).
  rewrite !order_by_visit_distinct by done.
  do 2 eexists. split_and!; [done..|]. simpl.
  by rewrite <-joined_app, window_adjacent.
Qed.

Lemma follower_pages_are_adjacent_witness :
  (Follow.createdAt <$> followers_of "u-carol" carol_followed
   = [1021; 1042]%Z)
  ∧ (FollowService.getFollowers "u-carol" (mkPagination 2 0)
       (FollowService.getFollowers "u-carol" (mkPagination 1 1)
          (FollowService.getFollowers "u-carol" (mkPagination 1 0)
             carol_followed).2).2).1
    = Resolved (mkListing 2 [Profile.of_user bob; Profile.of_user alice]).
Proof.
  split; [reflexivity|].
  destruct (follower_pages_are_adjacent "u-carol" 1 0 carol_followed)
    as (a & b & Ha & Hb & _ & Hboth);
    [by_evaluation|lia|lia|by_evaluation|by_evaluation|].
  vm_compute in Ha, Hb. injection Ha as <-. injection Hb as <-.
  exact Hboth.
Defined.

(** X4.  The counts are the totals of the listings.  For an existing
    user and a store that answers, [getFollowerCount] resolves to the
    [total] that [getFollowers] reports under any pagination, and
    [getFollowingCount] to the [total] of [getFollowing]. *)
Theorem counts_are_listing_totals (u : string) (p : Pagination) (w : World) :
  user_exists u w → calm 3 (pending w) →
  (∃ l, (FollowService.getFollowers u p w).1 = Resolved l
        ∧ (FollowService.getFollowerCount u w).1 = Resolved (total l))
  ∧ (∃ l, (FollowService.getFollowing u p w).1 = Resolved l
          ∧ (FollowService.getFollowingCount u w).1 = Resolved (total l)).
Proof.
  intros Hu Hcalm.
  assert (calm 2 (pending w)) by (by eapply calm_le, Hcalm; lia).
  split; eexists.
  - by rewrite getFollowers_calm, getFollowerCount_calm.
  - by rewrite getFollowing_calm, getFollowingCount_calm.
Qed.

Lemma counts_are_listing_totals_witness :
  (FollowService.getFollowerCount "u-carol" stored_alice_first).1 = Resolved 2%Z
  ∧ (FollowService.getFollowingCount "u-carol" stored_alice_first).1
    = Resolved 0%Z.
Proof.
  destruct (counts_are_listing_totals "u-carol" (mkPagination 20 0)
              stored_alice_first)
    as [(l1 & Hl1 & Hc1) (l2 & Hl2 & Hc2)]; [by_evaluation..|].
  vm_compute in Hl1, Hl2. injection Hl1 as <-. injection Hl2 as <-.
  split; [exact Hc1|exact Hc2].
Defined.

(** ** How the writes move the counts and the other pairs *)

Lemma filter_without_id (P : Follow.t → Prop) `{∀ f, Decision (P f)}
    (fs : list Follow.t) (f : Follow.t) :
  NoDup (Follow.id <$> fs) → f ∈ fs →
  length (filter P (filter (λ g, Follow.id g ≠ Follow.id f) fs))
  + (if decide (P f) then 1 else 0)
  = length (filter P fs).
Proof.
  intros Hnd Hf.
  induction fs as [|g fs IH]; [by apply not_elem_of_nil in Hf|].
  simpl in Hnd. apply NoDup_cons in Hnd as [Hg Hnd].
  apply elem_of_cons in Hf as [->|Hf].
  - rewrite (filter_cons_False _ g) by (by intros ?).
    rewrite (filter_cons P).
    assert (filter (λ h, Follow.id h ≠ Follow.id g) fs = fs) as ->.
    { clear IH. induction fs as [|h fs IH]; [done|].
      rewrite filter_cons_True.
      - f_equal. apply IH.
        + intros Hin. apply Hg. by right.
        + by apply NoDup_cons in Hnd as [_ ?].
      - intros Hid. apply Hg. rewrite <-Hid. left. }
    case_decide; simpl; lia.
  - assert (Follow.id g ≠ Follow.id f) as Hne.
    { intros Hid. apply Hg. rewrite Hid. apply list_elem_of_fmap. eauto. }
    rewrite (filter_cons_True _ g) by done.
    rewrite !(filter_cons P). specialize (IH Hnd Hf).
    destruct (decide (P g)); simpl; lia.
Qed.

Lemma edge_lookup a b w :
  edge_exists a b w →
  ∃ f, prisma.follow.lookup a b (follows w) = Some f
       ∧ f ∈ follows w ∧ Follow.followerId f = a ∧ Follow.followeeId f = b.
Proof.
  intros [f Hf]%follow_lookup_Some. exists f. split; [done|].
  by apply follow_lookup_spec.
Qed.

(** X5.  A follow moves two counts by one.  Let [a] and [b] be distinct
    existing users without an edge from [a] to [b] and let the store
    answer.  After [followUser] for [(a, b)], the follower count of [b]
    and the following count of [a] are one higher than before, and for
    every other existing user both counts are what they were. *)
Theorem follow_increments_counts (a b c : string) (w : World) :
  a ≠ b → user_exists a w → user_exists b w → ¬ edge_exists a b w →
  user_exists c w →
  calm 5 (pending w) →
  let w1 := (FollowService.followUser (mkFollowRequest a b) w).2 in
  (FollowService.getFollowerCount c w1).1
  = Resolved (Z.of_nat (length (followers_of c w))
              + (if decide (c = b) then 1 else 0))%Z
  ∧ (FollowService.getFollowingCount c w1).1
    = Resolved (Z.of_nat (length (following_of c w))
                + (if decide (c = a) then 1 else 0))%Z.
Proof.
  intros Hab Ha Hb Hedge Hc Hcalm. simpl.
  rewrite followUser_creates by (done || by eapply calm_le, Hcalm; lia).
  simpl. set (w1 := bump_id_seq _).
  assert (calm 2 (pending w1)) as Hcalm1 by by apply (calm_called3 2).
  rewrite getFollowerCount_calm, getFollowingCount_calm by done.
  unfold followers_of, following_of. subst w1. simpl.
  rewrite !filter_app, !length_app, !filter_cons, !filter_nil. simpl.
  split; f_equal; repeat case_decide; simplify_eq/=; lia.
Qed.

Lemma follow_increments_counts_witness :
  (FollowService.getFollowerCount "u-bob" alice_follows_bob).1 = Resolved 1%Z
  ∧ (FollowService.getFollowingCount "u-bob" alice_follows_bob).1
    = Resolved 0%Z.
Proof.
  by destruct (follow_increments_counts "u-alice" "u-bob" "u-bob" seeded)
    as [Hers Hing]; [done|by_evaluation..|].
Defined.

(** X6.  An unfollow moves the same two counts back.  Let the pair
    [(a, b)] have an edge, let edge identifiers be unique and let the
    store answer.  After [unfollowUser] for [(a, b)], the follower count
    of [b] and the following count of [a] are one lower than before, and
    for every other existing user both counts are what they were. *)
Theorem unfollow_decrements_counts (a b c : string) (w : World) :
  edge_exists a b w → unique_ids w → user_exists c w →
  calm 4 (pending w) →
  let w1 := (FollowService.unfollowUser (mkFollowRequest a b) w).2 in
  (FollowService.getFollowerCount c w1).1
  = Resolved (Z.of_nat (length (followers_of c w))
              - (if decide (c = b) then 1 else 0))%Z
  ∧ (FollowService.getFollowingCount c w1).1
    = Resolved (Z.of_nat (length (following_of c w))
                - (if decide (c = a) then 1 else 0))%Z.
Proof.
  intros (f & Hl & Hf & <- & <-)%edge_lookup Hids Hc Hcalm. simpl.
  rewrite (unfollowUser_deletes _ _ _ _ Hl)
    by (by eapply calm_le, Hcalm; lia).
  simpl. set (w1 := set_follows _ _).
  assert (calm 2 (pending w1)) as Hcalm1.
  { apply calm_called, calm_called. by eapply calm_le, Hcalm. }
  rewrite getFollowerCount_calm, getFollowingCount_calm by done.
  unfold followers_of, following_of. subst w1. simpl.
  pose proof (filter_without_id (λ g, Follow.followeeId g = c) _ f Hids Hf).
  pose proof (filter_without_id (λ g, Follow.followerId g = c) _ f Hids Hf).
  split; f_equal; repeat case_decide; simplify_eq/=; lia.
Qed.

Lemma unfollow_decrements_counts_witness :
  (FollowService.getFollowerCount "u-bob"
     (FollowService.unfollowUser (mkFollowRequest "u-alice" "u-bob")
        alice_follows_bob).2).1 = Resolved 0%Z
  ∧ (FollowService.getFollowingCount "u-alice"
       (FollowService.unfollowUser (mkFollowRequest "u-alice" "u-bob")
          alice_follows_bob).2).1 = Resolved 0%Z.
Proof.
  split.
  - by destruct (unfollow_decrements_counts "u-alice" "u-bob" "u-bob"
                   alice_follows_bob) as [H _]; [by_evaluation..|].
  - by destruct (unfollow_decrements_counts "u-alice" "u-bob" "u-alice"
                   alice_follows_bob) as [_ H]; [by_evaluation..|].
Defined.

Lemma follow_findUnique_settles a b w r w' :
  prisma.follow.findUnique a b w = (Resolved r, w') →
  r = prisma.follow.lookup a b (follows w) ∧ server w' = server w.
Proof.
  destruct w as [us fs n t [|[msg|] p] c ts sc];
    unfold prisma.follow.findUnique, store_call; simpl;
    by intros [= <- <-].
Qed.

Lemma unfollowUser_effect a b w :
  let w' := (FollowService.unfollowUser (mkFollowRequest a b) w).2 in
  server w' = server w
  ∨ ∃ f, prisma.follow.lookup a b (follows w) = Some f
         ∧ server w'
           = (users w, filter (λ g, Follow.id g ≠ Follow.id f) (follows w),
              id_seq w).
Proof.
  simpl. destruct (FollowService.unfollowUser _ w) as [o w'] eqn:Hrun; simpl.
  unfold FollowService.unfollowUser in Hrun; simpl in Hrun.
  unfold Promise.await at 1 in Hrun.
  pose proof (preserves_follow_findUnique a b w) as Hfind.
  destruct (prisma.follow.findUnique a b w) as [[[f|]|e] w1] eqn:Hfu;
    simpl in Hfind; [|left; settled..].
  apply follow_findUnique_settles in Hfu as [Hf _].
  unfold Promise.await, prisma.follow.delete in Hrun.
  destruct w1 as [us fs n t [|[msg|] p] c ts sc]; unfold store_call in Hrun;
    simpl in Hrun; try (left; settled);
    (destruct (head (filter _ fs)); simpl in Hrun;
     [right|left; settled]);
    exists f; unfold server, Promise.resolve in *; by simplify_eq/=.
Qed.

Lemma NoDup_fmap_elem_eq {A B} (key : A → B) (l : list A) x y :
  NoDup (key <$> l) → x ∈ l → y ∈ l → key x = key y → x = y.
Proof.
  induction l as [|z l IH]; simpl; [by intros _ ?%not_elem_of_nil|].
  rewrite NoDup_cons. intros [Hz Hnd] Hx Hy Hkey.
  apply elem_of_cons in Hx as [->|Hx], Hy as [->|Hy]; try done.
  - exfalso. apply Hz. rewrite Hkey. apply list_elem_of_fmap. eauto.
  - exfalso. apply Hz. rewrite <-Hkey. apply list_elem_of_fmap. eauto.
  - by apply IH.
Qed.

Lemma lookup_new_row a b w w0 :
  ¬ edge_exists a b w →
  prisma.follow.lookup a b (follows w ++ [new_row a b w0])
  = Some (new_row a b w0).
Proof.
  intros Hedge. unfold prisma.follow.lookup.
  rewrite filter_app, filter_none.
  - by rewrite filter_cons_True.
  - intros f Hf Hpair. apply Hedge. unfold edge_exists.
    rewrite <-Hpair. apply list_elem_of_fmap. eauto.
Qed.

(** X7.  A follow touches one pair only.  For every request, world and
    environment, and every pair other than the requested one, the pair
    has an edge after [followUser] exactly when it had one before. *)
Theorem follow_leaves_other_pairs (request : FollowRequest) (c d : string)
    (w : World) :
  (c, d) ≠ (req_followerId request, req_followeeId request) →
  edge_exists c d (FollowService.followUser request w).2 ↔ edge_exists c d w.
Proof.
  destruct request as [a b]. simpl. intros Hcd.
  destruct (followUser_cases a b w) as [Hs|(_ & _ & _ & _ & t & Hs)];
    simpl in Hs; unfold server in Hs; simplify_eq; unfold edge_exists.
  - by match goal with H : follows _ = follows w |- _ => rewrite H end.
  - match goal with H : follows _ = _ ++ _ |- _ => rewrite H end.
    rewrite fmap_app, elem_of_app. simpl.
    rewrite list_elem_of_singleton. unfold Follow.pair at 2. simpl.
    split; [by intros [?|?]|by left].
Qed.

Lemma follow_leaves_other_pairs_witness :
  ¬ edge_exists "u-bob" "u-alice" alice_follows_bob.
Proof.
  rewrite (follow_leaves_other_pairs (mkFollowRequest "u-alice" "u-bob")
             "u-bob" "u-alice" seeded) by done.
  by_evaluation.
Defined.

(** X8.  An unfollow touches one pair only.  With unique edge
    identifiers, for every request and environment and every pair other
    than the requested one, the pair has an edge after [unfollowUser]
    exactly when it had one before. *)
Theorem unfollow_leaves_other_pairs (request : FollowRequest) (c d : string)
    (w : World) :
  unique_ids w →
  (c, d) ≠ (req_followerId request, req_followeeId request) →
  edge_exists c d (FollowService.unfollowUser request w).2 ↔ edge_exists c d w.
Proof.
  destruct request as [a b]. simpl. intros Hids Hcd.
  destruct (unfollowUser_effect a b w) as [Hs|(f & Hl & Hs)];
    simpl in Hs; unfold server in Hs; simplify_eq; unfold edge_exists.
  - by match goal with H : follows _ = follows w |- _ => rewrite H end.
  - match goal with H : follows _ = filter _ _ |- _ => rewrite H end.
    apply follow_lookup_spec in Hl as (Hf & Ha & Hb).
    rewrite !list_elem_of_fmap. split.
    + intros (g & Hpair & [_ Hg]%list_elem_of_filter). eauto.
    + intros (g & Hpair & Hg). exists g. split; [done|].
      apply delete_exactly; [done..|]. split; [done|].
      intros ->. apply Hcd. rewrite Hpair. unfold Follow.pair. congruence.
Qed.

Lemma unfollow_leaves_other_pairs_witness :
  edge_exists "u-bob" "u-carol"
    (FollowService.unfollowUser (mkFollowRequest "u-alice" "u-carol")
       stored_alice_first).2.
Proof.
  rewrite (unfollow_leaves_other_pairs (mkFollowRequest "u-alice" "u-carol")
             "u-bob" "u-carol" stored_alice_first);
    [by_evaluation|by_evaluation|done].
Defined.

(** X9.  An edge can be removed once.  Let the pair [(a, b)] have an
    edge, let the pair index be unique and let the store answer.  Then
    [unfollowUser] resolves, and a second [unfollowUser] for the same
    pair rejects with [FOLLOW_NOT_FOUND] (status 404) and leaves the
    tables as the first one left them. *)
Theorem unfollow_twice (a b : string) (w : World) :
  edge_exists a b w → unique_pairs w →
  calm 3 (pending w) →
  let first := FollowService.unfollowUser (mkFollowRequest a b) w in
  let second := FollowService.unfollowUser (mkFollowRequest a b) first.2 in
  first.1 = Resolved ()
  ∧ second.1 = Rejected (createError 404 "Follow relationship not found"
                                     ErrorCodes.FOLLOW_NOT_FOUND)
  ∧ tables second.2 = tables first.2.
Proof.
  intros (f & Hl & Hf & Ha & Hb)%edge_lookup Hpairs Hcalm. simpl.
  rewrite (unfollowUser_deletes _ _ _ _ Hl)
    by (by eapply calm_le, Hcalm; lia).
  simpl. set (w1 := set_follows _ _).
  assert (calm 1 (pending w1)) as Hcalm1.
  { apply calm_called, calm_called. by eapply calm_le, Hcalm. }
  rewrite unfollowUser_not_found; [done| |done].
  apply eq_None_not_Some. rewrite <-follow_lookup_Some.
  subst w1. simpl.
  intros (g & Hpair & [Hid Hg]%list_elem_of_filter)%list_elem_of_fmap.
  apply Hid. f_equal.
  apply (NoDup_fmap_elem_eq Follow.pair (follows w)); [done..|].
  rewrite <-Hpair. unfold Follow.pair. congruence.
Qed.

Lemma unfollow_twice_witness :
  (FollowService.unfollowUser (mkFollowRequest "u-alice" "u-bob")
     (FollowService.unfollowUser (mkFollowRequest "u-alice" "u-bob")
        alice_follows_bob).2).1
  = Rejected (createError 404 "Follow relationship not found"
                          ErrorCodes.FOLLOW_NOT_FOUND).
Proof.
  by destruct (unfollow_twice "u-alice" "u-bob" alice_follows_bob)
    as (_ & H & _); [by_evaluation..|].
Defined.

(** X10.  Following again after an unfollow.  Let [a] and [b] be distinct
    existing users without an edge from [a] to [b] and let the store
    answer.  Then follow, unfollow, follow for the pair all resolve; the
    second follow returns an identifier different from the first one,
    and the pair has an edge at the end. *)
Theorem follow_again_after_unfollow (a b : string) (w : World) :
  a ≠ b → user_exists a w → user_exists b w → ¬ edge_exists a b w →
  calm 8 (pending w) →
  let first := FollowService.followUser (mkFollowRequest a b) w in
  let undone := FollowService.unfollowUser (mkFollowRequest a b) first.2 in
  let again := FollowService.followUser (mkFollowRequest a b) undone.2 in
  ∃ id1 id2,
    first.1 = Resolved (mkCreated id1)
    ∧ undone.1 = Resolved ()
    ∧ again.1 = Resolved (mkCreated id2)
    ∧ id1 ≠ id2
    ∧ edge_exists a b again.2.
Proof.
  intros Hab Ha Hb Hedge Hcalm. simpl.
  rewrite followUser_creates by (done || by eapply calm_le, Hcalm; lia).
  simpl. set (row := new_row a b _). set (w1 := bump_id_seq _).
  assert (calm 5 (pending w1)) as Hcalm1 by by apply (calm_called3 5).
  assert (prisma.follow.lookup a b (follows w1) = Some row) as Hl
    by by apply lookup_new_row.
  rewrite (unfollowUser_deletes _ _ _ _ Hl)
    by (by eapply calm_le, Hcalm1; lia).
  simpl. set (w2 := set_follows _ _).
  assert (calm 3 (pending w2)) as Hcalm2.
  { apply calm_called, calm_called. by eapply calm_le, Hcalm1. }
  assert (¬ edge_exists a b w2) as Hedge2.
  { intros (f & Hpair & [Hid Hf]%list_elem_of_filter)%list_elem_of_fmap.
    simpl in Hf. apply elem_of_app in Hf as [Hf|Hf].
    - apply Hedge. unfold edge_exists. rewrite Hpair.
      apply list_elem_of_fmap. eauto.
    - apply list_elem_of_singleton in Hf. by subst f. }
  rewrite followUser_creates by done. simpl.
  exists (gen_uuid (id_seq w)), (gen_uuid (S (id_seq w))).
  split_and!; try done.
  - intros Heq%gen_uuid_inj. lia.
  - unfold edge_exists. simpl. rewrite fmap_app, elem_of_app. right.
    apply list_elem_of_singleton. done.
Qed.

Lemma follow_again_after_unfollow_witness :
  (FollowService.followUser (mkFollowRequest "u-alice" "u-bob")
     (FollowService.unfollowUser (mkFollowRequest "u-alice" "u-bob")
        alice_follows_bob).2).1
  = Resolved (mkCreated "follow-1").
Proof.
  destruct (follow_again_after_unfollow "u-alice" "u-bob" seeded)
    as (id1 & id2 & _ & _ & Hagain & _); [done|by_evaluation..|].
  reflexivity.
Defined.

(** X11.  When a follow resolves.  With a store that answers,
    [followUser] resolves exactly when the two identifiers differ, both
    users exist and the pair has no edge yet; in every other case it
    rejects. *)
Theorem follow_resolves_iff (a b : string) (w : World) :
  calm 3 (pending w) →
  (∃ result,
     (FollowService.followUser (mkFollowRequest a b) w).1 = Resolved result)
  ↔ a ≠ b ∧ user_exists a w ∧ user_exists b w ∧ ¬ edge_exists a b w.
Proof.
  intros Hcalm. split.
  - intros [result Hres].
    destruct (decide (a = b)) as [->|Hab].
    { unfold FollowService.followUser in Hres. simpl in Hres.
      by rewrite decide_True in Hres. }
    assert (calm 2 (pending w)) as Hcalm2 by (by eapply calm_le, Hcalm; lia).
    destruct (decide (user_exists a w)) as [Ha|Ha]; last first.
    { unfold FollowService.followUser, Promise.await in Hres. simpl in Hres.
      rewrite decide_False, existence_checks_calm in Hres by done.
      by rewrite lookup_absent in Hres. }
    destruct (decide (user_exists b w)) as [Hb|Hb]; last first.
    { unfold FollowService.followUser, Promise.await in Hres. simpl in Hres.
      rewrite decide_False, existence_checks_calm in Hres by done.
      by rewrite lookup_present, lookup_absent in Hres. }
    destruct (decide (edge_exists a b w)) as [Hedge|Hedge]; [|done].
    by rewrite followUser_duplicate in Hres.
  - intros (Hab & Ha & Hb & Hedge). eexists.
    by rewrite followUser_creates.
Qed.

Lemma follow_resolves_iff_witness :
  ¬ ∃ result,
      (FollowService.followUser (mkFollowRequest "u-carol" "u-ghost") seeded).1
      = Resolved result.
Proof.
  rewrite (follow_resolves_iff "u-carol" "u-ghost" seeded) by by_evaluation.
  intros (_ & _ & Hghost & _). revert Hghost. by_evaluation.
Defined.



(** X13.  Only the [create] call is inside the [try].  Let [a] and [b]
    differ and let the first existence check fail with the message
    [msg].  Then [followUser] rejects with that very error, also when
    [msg] contains "Unique constraint failed"; the tables are unchanged
    and the controller answers 500 with the generic body. *)
Theorem existence_check_failure_is_rethrown (a b msg : string) (w : World) :
  a ≠ b → head (pending w) = Some (Some msg) →
  let res := FollowService.followUser (mkFollowRequest a b) w in
  res.1 = Rejected (JsError msg)
  ∧ tables res.2 = tables w
  ∧ (followController.follow (mkFollowRequest a b) w).1
    = mkResponse 500 internal_body.
Proof.
  intros Hab Hmsg. simpl.
  assert (∃ w', FollowService.followUser (mkFollowRequest a b) w
                = (Rejected (JsError msg), w')
                ∧ tables w' = tables w) as (w' & Hrun & Ht).
  { unfold FollowService.followUser; simpl. rewrite decide_False by done.
    unfold Promise.await, Promise.all, prisma.user.findUnique.
    rewrite (store_call_fault _ _ msg) by done.
    pose proof (preserves_user_findUnique b (called w)) as Hb.
    unfold prisma.user.findUnique in Hb.
    destruct (store_call _ (called w)) as [rb w2]. simpl in Hb.
    exists w2. split; [done|]. by apply server_tables in Hb. }
  unfold followController.follow, asyncHandler, Promise.await.
  by rewrite Hrun.
Qed.

Lemma existence_check_failure_is_rethrown_witness :
  (FollowService.followUser (mkFollowRequest "u-alice" "u-bob")
     (set_pending [Some "Unique constraint failed (connection pool)"]
                  alice_follows_bob)).1
  = Rejected (JsError "Unique constraint failed (connection pool)").
Proof.
  by destruct (existence_check_failure_is_rethrown "u-alice" "u-bob"
                 "Unique constraint failed (connection pool)"
                 (set_pending [Some "Unique constraint failed (connection pool)"]
                              alice_follows_bob))
    as (H & _).
Defined.

(** ** What the controllers answer *)

Lemma asyncHandler_resolved {A} (svc : Promise A) (answer : A → Response)
    w a w' :
  svc w = (Resolved a, w') →
  asyncHandler (let! x := svc in Promise.resolve (answer x)) w
  = (answer a, w').
Proof. intros H. unfold asyncHandler, Promise.await. by rewrite H. Qed.

Lemma asyncHandler_rejected {A} (svc : Promise A) (answer : A → Response)
    w e w' :
  svc w = (Rejected e, w') →
  asyncHandler (let! x := svc in Promise.resolve (answer x)) w
  = errorHandler e w'.
Proof. intros H. unfold asyncHandler, Promise.await. by rewrite H. Qed.

(** X14.  The answers of [POST /follows] to a body that passes
    validation.  Let both identifiers be UUIDs and let the store answer.
    Then the [follow] controller answers 400 [SELF_FOLLOW] when the two
    identifiers are equal, else 404 [USER_NOT_FOUND] naming the follower
    when the follower is missing, else 404 naming the followee when the
    followee is missing, else 409 [DUPLICATE_FOLLOW] when the pair has
    an edge, and otherwise 201 with the identifier of the new edge. *)
Theorem follow_controller_answers (a b : string) (w : World) :
  is_uuid a = true → is_uuid b = true →
  calm 3 (pending w) →
  (followController.follow (mkFollowRequest a b) w).1
  = if decide (a = b) then
      mkResponse 400 (error_body "Cannot follow yourself" (Some "SELF_FOLLOW"))
    else if decide (user_exists a w) then
      if decide (user_exists b w) then
        if decide (edge_exists a b w) then
          mkResponse 409 (error_body "Already following this user"
                                     (Some "DUPLICATE_FOLLOW"))
        else mkResponse 201 (followed_body (gen_uuid (id_seq w)))
      else
        mkResponse 404 (error_body "Followee user not found"
                                   (Some "USER_NOT_FOUND"))
    else
      mkResponse 404 (error_body "Follower user not found"
                                 (Some "USER_NOT_FOUND")).
Proof.
  intros _ _ Hcalm.
  assert (calm 2 (pending w)) as Hcalm2 by (by eapply calm_le, Hcalm; lia).
  unfold followController.follow.
  destruct (decide (a = b)) as [->|Hab].
  { erewrite asyncHandler_rejected
      by (unfold FollowService.followUser; simpl; by rewrite decide_True).
    done. }
  destruct (decide (user_exists a w)) as [Ha|Ha]; last first.
  { erewrite asyncHandler_rejected
      by (unfold FollowService.followUser, Promise.await; simpl;
          rewrite decide_False, existence_checks_calm by done;
          by rewrite lookup_absent).
    done. }
  destruct (decide (user_exists b w)) as [Hb|Hb]; last first.
  { erewrite asyncHandler_rejected
      by (unfold FollowService.followUser, Promise.await; simpl;
          rewrite decide_False, existence_checks_calm by done;
          by rewrite lookup_present, lookup_absent).
    done. }
  destruct (decide (edge_exists a b w)) as [Hedge|Hedge].
  - erewrite asyncHandler_rejected by (by apply followUser_duplicate); done.
  - erewrite asyncHandler_resolved by (by apply followUser_creates); done.
Qed.

Lemma follow_controller_answers_witness :
  (followController.follow (mkFollowRequest eli_id fay_id) registered).1
  = mkResponse 201 (followed_body "follow-1")
  ∧ (followController.follow (mkFollowRequest eli_id eli_id) registered).1
    = mkResponse 400 (error_body "Cannot follow yourself" (Some "SELF_FOLLOW"))
  ∧ (followController.follow (mkFollowRequest dana_id eli_id) registered).1
    = mkResponse 409 (error_body "Already following this user"
                                 (Some "DUPLICATE_FOLLOW"))
  ∧ (followController.follow (mkFollowRequest nobody_id eli_id) registered).1
    = mkResponse 404 (error_body "Follower user not found"
                                 (Some "USER_NOT_FOUND")).
Proof.
  split_and!.
  - rewrite (follow_controller_answers eli_id fay_id registered)
      by (reflexivity || by_evaluation).
    reflexivity.
  - rewrite (follow_controller_answers eli_id eli_id registered)
      by (reflexivity || by_evaluation).
    reflexivity.
  - rewrite (follow_controller_answers dana_id eli_id registered)
      by (reflexivity || by_evaluation).
    reflexivity.
  - rewrite (follow_controller_answers nobody_id eli_id registered)
      by (reflexivity || by_evaluation).
    reflexivity.
Defined.

(** X15.  The answers of [DELETE /follows] to a body that passes
    validation.  Let both identifiers be UUIDs and let the store answer.
    Then the [unfollow] controller answers 200 when the pair has an edge
    and 404 [FOLLOW_NOT_FOUND] when it has none. *)
Theorem unfollow_controller_answers (a b : string) (w : World) :
  is_uuid a = true → is_uuid b = true →
  calm 2 (pending w) →
  (followController.unfollow (mkFollowRequest a b) w).1
  = if decide (edge_exists a b w) then mkResponse 200 unfollowed_body
    else mkResponse 404 (error_body "Follow relationship not found"
                                    (Some "FOLLOW_NOT_FOUND")).
Proof.
  intros _ _ Hcalm. unfold followController.unfollow.
  destruct (decide (edge_exists a b w)) as [Hedge|Hedge].
  - destruct (edge_lookup _ _ _ Hedge) as (f & Hl & _).
    erewrite asyncHandler_resolved by (by apply unfollowUser_deletes); done.
  - erewrite asyncHandler_rejected
      by (apply unfollowUser_not_found;
          [apply eq_None_not_Some; by rewrite <-follow_lookup_Some
          |by eapply calm_le, Hcalm; lia]).
    done.
Qed.

Lemma unfollow_controller_answers_witness :
  (followController.unfollow (mkFollowRequest dana_id eli_id) registered).1
  = mkResponse 200 unfollowed_body
  ∧ (followController.unfollow (mkFollowRequest eli_id dana_id) registered).1
    = mkResponse 404 (error_body "Follow relationship not found"
                                 (Some "FOLLOW_NOT_FOUND")).
Proof.
  split.
  - rewrite (unfollow_controller_answers dana_id eli_id registered)
      by (reflexivity || by_evaluation).
    reflexivity.
  - rewrite (unfollow_controller_answers eli_id dana_id registered)
      by (reflexivity || by_evaluation).
    reflexivity.
Defined.

(** X16.  The answers of [GET /follows/check].  When one of the two
    query parameters is not a string, the [isFollowing] controller
    answers 400 without a [code] and hands the world back untouched: no
    client call is made and nothing is logged.  When both are strings
    and the store answers, it answers 200 with [isFollowing] telling
    whether the pair has an edge, for identifiers of existing users and
    of unknown ones alike. *)
Theorem isFollowing_controller_answers (a b : option string) (w : World) :
  (a = None ∨ b = None →
   followController.isFollowing a b w
   = (mkResponse 400 missing_parameters_body, w))
  ∧ (∀ a' b', a = Some a' → b = Some b' → calm 1 (pending w) →
       followController.isFollowing a b w
       = (mkResponse 200
            (data_body
               (JObject [("isFollowing",
                          JBool (bool_decide (edge_exists a' b' w)))])),
          called w)).
Proof.
  split.
  - by destruct a, b; intros [?|?].
  - intros a' b' -> -> Hcalm. unfold followController.isFollowing.
    erewrite asyncHandler_resolved; [|by apply isFollowing_calm].
    rewrite (bool_decide_ext (edge_exists a' b' w)
               (is_Some (prisma.follow.lookup a' b' (follows w))))
      by apply follow_lookup_Some.
    done.
Qed.

Lemma isFollowing_controller_answers_witness :
  followController.isFollowing (Some "u-alice") None alice_follows_bob
  = (mkResponse 400 missing_parameters_body, alice_follows_bob)
  ∧ (followController.isFollowing (Some "u-alice") (Some "u-bob")
       alice_follows_bob).1
    = mkResponse 200 (data_body (JObject [("isFollowing", JBool true)])).
Proof.
  destruct (isFollowing_controller_answers (Some "u-alice") None
              alice_follows_bob) as [Hmissing _].
  destruct (isFollowing_controller_answers (Some "u-alice") (Some "u-bob")
              alice_follows_bob) as [_ Hboth].
  split.
  - apply Hmissing. by right.
  - rewrite (Hboth "u-alice" "u-bob") by (done || by_evaluation).
    reflexivity.
Defined.

(** X17.  The answers of the four reads under [/users/:userId] to a
    request that passes validation.  Let the user identifier be a UUID,
    let the pagination be validated ([1 ≤ limit ≤ 100], [0 ≤ offset])
    and let the store answer.  Then each of the controllers
    [getFollowerCount], [getFollowingCount], [getFollowers] and
    [getFollowing] answers 404 [USER_NOT_FOUND] when the user has no row;
    otherwise the count controllers answer 200 with the number of edges
    that lead to the user, respectively leave it, and the listing
    controllers answer 200 with a listing whose [total] is that same
    number. *)
Theorem read_controllers_answer (u : string) (p : Pagination) (w : World) :
  is_uuid u = true →
  (1 ≤ limit p ≤ 100)%Z → (0 ≤ offset p)%Z →
  calm 3 (pending w) →
  let not_found :=
    mkResponse 404 (error_body "User not found" (Some "USER_NOT_FOUND")) in
  (followController.getFollowerCount u w).1
  = (if decide (user_exists u w)
     then mkResponse 200 (count_body (Z.of_nat (length (followers_of u w))))
     else not_found)
  ∧ (followController.getFollowingCount u w).1
    = (if decide (user_exists u w)
       then mkResponse 200 (count_body (Z.of_nat (length (following_of u w))))
       else not_found)
  ∧ (if decide (user_exists u w)
     then ∃ l, (followController.getFollowers u p w).1
               = mkResponse 200 (data_body (json_of_listing l))
               ∧ total l = Z.of_nat (length (followers_of u w))
     else (followController.getFollowers u p w).1 = not_found)
  ∧ (if decide (user_exists u w)
     then ∃ l, (followController.getFollowing u p w).1
               = mkResponse 200 (data_body (json_of_listing l))
               ∧ total l = Z.of_nat (length (following_of u w))
     else (followController.getFollowing u p w).1 = not_found).
Proof.
  intros _ _ _ Hcalm. simpl.
  assert (calm 2 (pending w)) as Hcalm2 by (by eapply calm_le, Hcalm; lia).
  assert (calm 1 (pending w)) as Hcalm1 by (by eapply calm_le, Hcalm; lia).
  unfold followController.getFollowerCount, followController.getFollowingCount,
    followController.getFollowers, followController.getFollowing.
  destruct (decide (user_exists u w)) as [Hu|Hu].
  - split_and!.
    + erewrite asyncHandler_resolved by (by apply getFollowerCount_calm); done.
    + erewrite asyncHandler_resolved by (by apply getFollowingCount_calm); done.
    + eexists. erewrite asyncHandler_resolved; [|by apply getFollowers_calm].
      done.
    + eexists. erewrite asyncHandler_resolved; [|by apply getFollowing_calm].
      done.
  - assert (prisma.user.lookup u (users w) = None) as Hl.
    { apply eq_None_not_Some. by rewrite <-user_lookup_Some. }
    split_and!;
      erewrite asyncHandler_rejected
        by (unfold FollowService.getFollowerCount,
              FollowService.getFollowingCount, FollowService.getFollowers,
              FollowService.getFollowing, Promise.await;
            by rewrite user_findUnique_calm, Hl);
      done.
Qed.

Lemma read_controllers_answer_witness :
  (followController.getFollowerCount eli_id registered).1
  = mkResponse 200 (count_body 1)
  ∧ (followController.getFollowers eli_id (mkPagination 20 0) registered).1
    = mkResponse 200
        (data_body
           (json_of_listing (mkListing 1 [Profile.of_user dana])))
  ∧ (followController.getFollowerCount nobody_id registered).1
    = mkResponse 404 (error_body "User not found" (Some "USER_NOT_FOUND")).
Proof.
  split_and!.
  - destruct (read_controllers_answer eli_id (mkPagination 20 0) registered)
      as (H & _); [reflexivity|simpl; lia|simpl; lia|by_evaluation|].
    rewrite H. reflexivity.
  - reflexivity.
  - destruct (read_controllers_answer nobody_id (mkPagination 20 0) registered)
      as (H & _); [reflexivity|simpl; lia|simpl; lia|by_evaluation|].
    rewrite H. reflexivity.
Defined.

(** ** The list of all users *)

Lemma string_leb_trans s1 s2 s3 :
  String.leb s1 s2 = true → String.leb s2 s3 = true →
  String.leb s1 s3 = true.
Proof.
  unfold String.leb. revert s2 s3.
  induction s1 as [|c1 s1 IH]; intros [|c2 s2] [|c3 s3]; simpl; try done.
  unfold Ascii.compare.
  destruct (N.compare_spec (Ascii.N_of_ascii c1) (Ascii.N_of_ascii c2)),
    (N.compare_spec (Ascii.N_of_ascii c2) (Ascii.N_of_ascii c3)),
    (N.compare_spec (Ascii.N_of_ascii c1) (Ascii.N_of_ascii c3));
    try done; try lia.
  apply IH.
Qed.

Lemma string_ltb_leb s1 s2 :
  String.ltb s1 s2 = true → String.leb s1 s2 = true.
Proof. unfold String.ltb, String.leb. by destruct (String.compare s1 s2). Qed.

Lemma string_not_ltb_leb s1 s2 :
  String.ltb s1 s2 = false → String.leb s2 s1 = true.
Proof.
  unfold String.ltb, String.leb. rewrite (String.compare_antisym s1 s2).
  by destruct (String.compare s2 s1).
Qed.

Lemma insert_row_username_sorted x l :
  StronglySorted username_le l →
  StronglySorted username_le (insert_row username_asc x l).
Proof.
  induction 1 as [|y l Hl IH Hy]; simpl.
  - by repeat constructor.
  - unfold username_asc at 1.
    destruct (String.ltb (User.username y) (User.username x)) eqn:Hyx.
    + constructor; [done|].
      rewrite insert_row_perm. constructor; [|done].
      by apply string_ltb_leb.
    + apply string_not_ltb_leb in Hyx.
      constructor; [by constructor|].
      constructor; [done|].
      eapply Forall_impl; [exact Hy|].
      intros z Hz. unfold username_le in *. by eapply string_leb_trans.
Qed.

(** X18.  [getAllUsers] lists every user, in ascending order of
    username.  When the client call gets through, it resolves to the
    profiles (identifier, username, display name) of a rearrangement of
    the user table in which no user comes before one with a smaller
    username; no user is left out and there is no pagination. *)
Theorem all_users_sorted (w : World) :
  calm 1 (pending w) →
  ∃ sorted,
    sorted ≡ₚ users w
    ∧ StronglySorted username_le sorted
    ∧ (FollowService.getAllUsers w).1 = Resolved (Profile.of_user <$> sorted).
Proof.
  intros Hcalm. exists (order_by username_asc (users w)). split_and!.
  - apply order_by_perm.
  - induction (users w) as [|x l IH]; simpl;
      [constructor|by apply insert_row_username_sorted].
  - unfold FollowService.getAllUsers, prisma.user.findMany.
    by rewrite store_call_calm.
Qed.

Lemma all_users_sorted_witness :
  (FollowService.getAllUsers
     (mkWorld [carol; alice; bob] [] 0 1000 [] [] [] [])).1
  = Resolved (Profile.of_user <$> [alice; bob; carol]).
Proof.
  destruct (all_users_sorted (mkWorld [carol; alice; bob] [] 0 1000 [] [] [] []))
    as (sorted & _ & _ & Hres); [by_evaluation|].
  reflexivity.
Defined.

(** X19.  The answers of [GET /users].  When the client call gets
    through, the [getAllUsers] controller answers 200 with the profiles
    of all users.  When it fails with the message [msg], the controller
    writes "getAllUsers failed:" and [msg] to the console and answers 500
    [INTERNAL_ERROR] whose message is [msg] itself, or "Failed to fetch
    users" when [msg] is empty; the tables are unchanged. *)
Theorem getAllUsers_controller_answers (w : World) :
  (calm 1 (pending w) →
   followController.getAllUsers w
   = (mkResponse 200
        (data_body
           (JArray (json_of_profile
                      <$> (Profile.of_user
                             <$> order_by username_asc (users w))))),
      called w))
  ∧ (∀ msg, head (pending w) = Some (Some msg) →
       let res := followController.getAllUsers w in
       res.1 = mkResponse 500
                 (error_body
                    (if decide (msg = "") then "Failed to fetch users" else msg)
                    (Some "INTERNAL_ERROR"))
       ∧ tables res.2 = tables w
       ∧ LogText "getAllUsers failed:" msg ∈ console res.2).
Proof.
  unfold followController.getAllUsers, asyncHandler, Promise.try_catch,
    Promise.await, FollowService.getAllUsers, prisma.user.findMany.
  split.
  - intros Hcalm. by rewrite store_call_calm.
  - intros msg Hmsg. rewrite (store_call_fault _ _ msg) by done. simpl.
    split_and!; [done..|].
    rewrite !elem_of_app, !list_elem_of_singleton. auto.
Qed.

Lemma getAllUsers_controller_answers_witness :
  (followController.getAllUsers (set_pending [Some ""] seeded)).1
  = mkResponse 500 (error_body "Failed to fetch users" (Some "INTERNAL_ERROR"))
  ∧ status (followController.getAllUsers seeded).1 = 200%Z.
Proof.
  destruct (getAllUsers_controller_answers (set_pending [Some ""] seeded))
    as [_ Hfail].
  destruct (getAllUsers_controller_answers seeded) as [Hok _].
  split.
  - by destruct (Hfail "") as (H & _).
  - rewrite Hok by by_evaluation. reflexivity.
Defined.

(** ** The schema constraints along any run of the service *)

Lemma errorHandler_server e w : server (errorHandler e w).2 = server w.
Proof. by destruct e. Qed.

Lemma asyncHandler_server fn w :
  server (asyncHandler fn w).2 = server (fn w).2.
Proof.
  unfold asyncHandler. destruct (fn w) as [[res|e] w']; [done|].
  apply errorHandler_server.
Qed.

Lemma await_resolve_world {A B} (p : Promise A) (f : A → B) w :
  (Promise.await p (λ x, Promise.resolve (f x)) w).2 = (p w).2.
Proof. unfold Promise.await. by destruct (p w) as [[a|e] w']. Qed.

Lemma controller_server {A} (svc : Promise A) (answer : A → Response) w :
  server (asyncHandler (let! x := svc in Promise.resolve (answer x)) w).2
  = server (svc w).2.
Proof. by rewrite asyncHandler_server, await_resolve_world. Qed.

Lemma read_controller_server {A} (svc : Promise A) (answer : A → Response) w :
  preserves_server svc →
  server (asyncHandler (let! x := svc in Promise.resolve (answer x)) w).2
  = server w.
Proof. intros Hsvc. by rewrite controller_server. Qed.

Lemma getAllUsers_controller_server w :
  server (followController.getAllUsers w).2 = server w.
Proof.
  unfold followController.getAllUsers. rewrite asyncHandler_server.
  unfold Promise.try_catch, Promise.await, FollowService.getAllUsers,
    prisma.user.findMany.
  by destruct w as [us fs n t [|[msg|] p] c ts sc].
Qed.

Lemma serve_server op w :
  match op with
  | Follow_ r => server (serve op w).2 = server (FollowService.followUser r w).2
  | Unfollow r =>
      server (serve op w).2 = server (FollowService.unfollowUser r w).2
  | _ => server (serve op w).2 = server w
  end.
Proof.
  destruct op as [r|r|u p|u p| |u|u|[a|] [b|]]; simpl;
    try apply controller_server;
    try apply getAllUsers_controller_server;
    try (apply read_controller_server;
         unfold FollowService.getFollowers, FollowService.getFollowing,
           FollowService.getFollowerCount, FollowService.getFollowingCount,
           FollowService.isFollowing;
         frame);
    done.
Qed.

Lemma serve_consistent op w :
  consistent w → consistent (serve op w).2 ∧ users (serve op w).2 = users w.
Proof.
  intros Hw. pose proof (serve_server op w) as Hs.
  destruct op as [[a b]|[a b]|u p|u p| |u|u|a b].
  - unfold server in Hs. simplify_eq.
    split.
    + eapply consistent_server;
        [..|by apply (followUser_consistent (mkFollowRequest a b) w)]; done.
    + destruct (followUser_cases a b w) as [Hc|(_ & _ & _ & _ & t & Hc)];
        simpl in Hc; unfold server in Hc; simplify_eq; congruence.
  - unfold server in Hs. simplify_eq.
    split.
    + eapply consistent_server;
        [..|by apply (unfollowUser_consistent (mkFollowRequest a b) w)]; done.
    + destruct (unfollowUser_cases a b w) as [Hc|(? & Hc)];
        simpl in Hc; unfold server in Hc; simplify_eq; congruence.
  - unfold server in Hs. simplify_eq. split; [|done].
    by apply (consistent_server w).
  - unfold server in Hs. simplify_eq. split; [|done].
    by apply (consistent_server w).
  - unfold server in Hs. simplify_eq. split; [|done].
    by apply (consistent_server w).
  - unfold server in Hs. simplify_eq. split; [|done].
    by apply (consistent_server w).
  - unfold server in Hs. simplify_eq. split; [|done].
    by apply (consistent_server w).
  - unfold server in Hs. simplify_eq. split; [|done].
    by apply (consistent_server w).
Qed.

(** X20.  The constraints of the schema hold along every run.  Starting
    from a [consistent] world (edge identifiers and pairs are unique, no
    edge is a self edge, both ends of every edge exist, and the
    identifier generator is ahead of every stored identifier), serving
    any sequence of operations, with any arguments and with the store
    failing any of the client calls, ends in a [consistent] world; and
    the user table is the one the run started with. *)
Theorem constraints_hold_along_every_run (ops : list Operation) (w : World) :
  consistent w →
  consistent (serve_all ops w) ∧ users (serve_all ops w) = users w.
Proof.
  revert w. induction ops as [|op ops IH]; intros w Hw; [done|].
  unfold serve_all. simpl. fold (serve_all ops (serve op w).2).
  destruct (serve_consistent op w Hw) as [Hc Hu].
  destruct (IH _ Hc) as [Hc' Hu']. split; [done|]. congruence.
Qed.

Lemma constraints_hold_along_every_run_witness :
  unique_pairs
    (serve_all
       [Follow_ (mkFollowRequest "u-alice" "u-bob");
        Follow_ (mkFollowRequest "u-alice" "u-bob");
        Follow_ (mkFollowRequest "u-bob" "u-bob");
        Unfollow (mkFollowRequest "u-carol" "u-bob");
        Follow_ (mkFollowRequest "u-carol" "u-ghost");
        ListAllUsers;
        Follow_ (mkFollowRequest "u-carol" "u-alice")]
       (set_pending [None; None; None; None; Some "timeout"] seeded)).
Proof.
  apply consistent_pairs.
  apply (constraints_hold_along_every_run _ _).
  apply (consistent_server seeded); [done..|apply seeded_consistent].
Defined.

(** ** Seeding *)

Lemma put_keys username displayName fresh us :
  ((λ u, (User.id u, User.username u)) <$> us)
    `prefix_of`
  ((λ u, (User.id u, User.username u))
     <$> seed.put username displayName fresh us).
Proof.
  unfold seed.put. destruct (head _).
  - rewrite <-list_fmap_compose.
    match goal with
    | |- _ `prefix_of` ?r =>
        assert (r = (λ u, (User.id u, User.username u)) <$> us) as ->; [|done]
    end.
    apply list_fmap_ext. intros i u _. simpl. by case_decide.
  - rewrite fmap_app. by apply prefix_app_r.
Qed.

Lemma put_seeds username displayName fresh us :
  User.username fresh = username →
  User.displayName fresh = Some displayName →
  seeded_with username displayName (seed.put username displayName fresh us).
Proof.
  intros Hname Hdisplay. unfold seeded_with, seed.put.
  destruct (head (filter _ us)) as [u|] eqn:Hhead.
  - split.
    + apply head_Some in Hhead as [l Hl].
      assert (u ∈ filter (λ u, User.username u = username) us) as Hin
        by (rewrite Hl; left).
      apply list_elem_of_filter in Hin as [Hu Hin].
      apply list_elem_of_fmap.
      exists (seed.renamed displayName u). split; [done|].
      apply list_elem_of_fmap. exists u. by rewrite decide_True.
    + apply Forall_fmap, Forall_forall. intros v _. simpl.
      by case_decide.
  - split.
    + rewrite fmap_app, elem_of_app. right. simpl.
      rewrite Hname. left.
    + apply Forall_app. split; [|by repeat constructor].
      apply Forall_forall. intros v Hv Hname'.
      assert (v ∈ filter (λ u, User.username u = username) us) as Hin
        by by apply list_elem_of_filter.
      destruct (filter _ us); [by apply not_elem_of_nil in Hin|done].
Qed.

Lemma put_keeps_seeds username displayName fresh us name display :
  name ≠ username → User.username fresh = username →
  seeded_with name display us →
  seeded_with name display (seed.put username displayName fresh us).
Proof.
  intros Hne Hfresh [Hin Hall]. unfold seeded_with, seed.put.
  destruct (head (filter _ us)).
  - split.
    + apply list_elem_of_fmap in Hin as (v & -> & Hv).
      apply list_elem_of_fmap. exists v. split; [done|].
      apply list_elem_of_fmap. exists v. by rewrite decide_False.
    + apply Forall_fmap. eapply Forall_impl; [exact Hall|].
      intros v Hv. simpl. case_decide; [|done]. simpl. congruence.
  - split.
    + rewrite fmap_app, elem_of_app. by left.
    + apply Forall_app. split; [done|]. repeat constructor. congruence.
Qed.

Lemma put_seeded_again username displayName fresh us :
  seeded_with username displayName us →
  seed.put username displayName fresh us = us.
Proof.
  intros [Hin Hall]. unfold seed.put.
  apply list_elem_of_fmap in Hin as (v & -> & Hv).
  destruct (head (filter _ us)) as [u|] eqn:Hhead.
  - transitivity (id <$> us); [|apply list_fmap_id]. apply list_fmap_ext.
    intros i u' Hu'. case_decide as Hname; [|done].
    rewrite Forall_forall in Hall.
    apply list_elem_of_lookup_2 in Hu'. specialize (Hall u' Hu' Hname).
    destruct u'. unfold seed.renamed. simpl in *. by rewrite Hall.
  - assert (v ∈ filter (λ u, User.username u = User.username v) us) as Hin
      by by apply list_elem_of_filter.
    destruct (filter _ us); [by apply not_elem_of_nil in Hin|done].
Qed.

(** The identifier of a new user row is one that no row has. *)
Lemma first_unused_ge fuel k ids : k ≤ first_unused fuel k ids.
Proof.
  revert k. induction fuel as [|fuel IH]; intros k; simpl; [done|].
  case_decide; [|done]. specialize (IH (S k)). lia.
Qed.

Lemma gen_user_id_inj n m : gen_user_id n = gen_user_id m → n = m.
Proof.
  unfold gen_user_id. intros H%(inj (String.app _)). by apply (inj pretty) in H.
Qed.

Lemma first_unused_exhausted fuel k ids :
  gen_user_id (first_unused fuel k ids) ∈ ids →
  ∀ j, k ≤ j ≤ k + fuel → gen_user_id j ∈ ids.
Proof.
  revert k. induction fuel as [|fuel IH]; intros k; simpl.
  - intros Hk j Hj. by replace j with k by lia.
  - case_decide as Hused; [|done]. intros Hrest j Hj.
    destruct (decide (j = k)) as [->|Hne]; [done|].
    apply (IH (S k)); [done|lia].
Qed.

Lemma first_unused_fresh k ids :
  gen_user_id (first_unused (length ids) k ids) ∉ ids.
Proof.
  intros Hused.
  pose proof (first_unused_exhausted _ _ _ Hused) as Hall.
  assert (gen_user_id <$> seq k (S (length ids)) ⊆+ ids) as Hsub.
  { apply NoDup_submseteq.
    - apply NoDup_fmap_2; [|apply NoDup_seq].
      intros n m. apply gen_user_id_inj.
    - intros x (j & -> & Hj%elem_of_seq)%list_elem_of_fmap.
      apply Hall. lia. }
  apply submseteq_length in Hsub.
  rewrite length_fmap, length_seq in Hsub. lia.
Qed.

(** The world an upsert leaves when its call gets through. *)
Lemma upsert_calm username displayName w :
  calm 1 (pending w) →
  ∃ u w' fresh,
    seed.upsert username displayName w = (Resolved u, w')
    ∧ User.username fresh = username
    ∧ User.displayName fresh = Some displayName
    ∧ users w' = seed.put username displayName fresh (users w)
    ∧ follows w' = follows w
    ∧ pending w' = tail (pending w).
Proof.
  intros Hcalm. unfold seed.upsert. rewrite store_call_calm by done. simpl.
  set (fresh := User.mk _ username (Some displayName) _).
  destruct (head (filter _ (users w))); do 2 eexists; exists fresh;
    by split_and!.
Qed.

(** What an upsert does to the server whatever the environment. *)
Lemma upsert_grows username displayName w :
  let w' := (seed.upsert username displayName w).2 in
  follows w' = follows w
  ∧ ((λ u, (User.id u, User.username u)) <$> users w)
      `prefix_of` ((λ u, (User.id u, User.username u)) <$> users w')
  ∧ id_seq w ≤ id_seq w'.
Proof.
  destruct w as [us fs n t [|[msg|] p] c ts sc]; unfold seed.upsert, store_call;
    simpl; try done;
    (destruct (head (filter _ us)) eqn:Hhead; simpl;
     (split_and!; [done|apply put_keys|]); [lia|]);
    unfold next_user_id; simpl;
    pose proof (first_unused_ge (length us) n (User.id <$> us)); lia.
Qed.

Lemma for_of_cons_resolved {A} (x : A) l body w w1 :
  body x w = (Resolved (), w1) →
  seed.for_of (x :: l) body w = seed.for_of l body w1.
Proof. intros H. simpl. unfold Promise.await. by rewrite H. Qed.

Lemma for_of_cons_rejected {A} (x : A) l body w e w1 :
  body x w = (Rejected e, w1) →
  seed.for_of (x :: l) body w = (Rejected e, w1).
Proof. intros H. simpl. unfold Promise.await. by rewrite H. Qed.

Lemma main_calm w :
  calm 3 (pending w) →
  ∃ fa fb fc w',
    seed.main w = (Resolved ["Seed complete"], w')
    ∧ (User.username fa = "alice" ∧ User.displayName fa = Some "Alice")
    ∧ (User.username fb = "bob" ∧ User.displayName fb = Some "Bob")
    ∧ (User.username fc = "carol" ∧ User.displayName fc = Some "Carol")
    ∧ users w'
      = seed.put "carol" "Carol" fc
          (seed.put "bob" "Bob" fb (seed.put "alice" "Alice" fa (users w)))
    ∧ follows w' = follows w
    ∧ pending w' = tail (tail (tail (pending w))).
Proof.
  intros [[H1 H2]%calm_2 H3]%calm_3.
  destruct (upsert_calm "alice" "Alice" w H1)
    as (ua & w1 & fa & Ea & ? & ? & Hu1 & Hf1 & Hp1).
  rewrite <-Hp1 in H2, H3.
  destruct (upsert_calm "bob" "Bob" w1 H2)
    as (ub & w2 & fb & Eb & ? & ? & Hu2 & Hf2 & Hp2).
  rewrite <-Hp2 in H3.
  destruct (upsert_calm "carol" "Carol" w2 H3)
    as (uc & w3 & fc & Ec & ? & ? & Hu3 & Hf3 & Hp3).
  exists fa, fb, fc, w3.
  split_and!; [|done..| | |].
  - unfold seed.main, seed.seed_users. unfold Promise.await at 1.
    rewrite (for_of_cons_resolved _ _ _ w w1)
      by (unfold Promise.await; cbn [fst snd]; by rewrite Ea).
    rewrite (for_of_cons_resolved _ _ _ w1 w2)
      by (unfold Promise.await; cbn [fst snd]; by rewrite Eb).
    by rewrite (for_of_cons_resolved _ _ _ w2 w3)
      by (unfold Promise.await; cbn [fst snd]; by rewrite Ec).
  - by rewrite Hu3, Hu2, Hu1.
  - congruence.
  - congruence.
Qed.

Lemma seed_lemma_once w :
  calm 3 (pending w) →
  ∃ w',
    seed.main w = (Resolved ["Seed complete"], w')
    ∧ seeded_with "alice" "Alice" (users w')
    ∧ seeded_with "bob" "Bob" (users w')
    ∧ seeded_with "carol" "Carol" (users w')
    ∧ pending w' = drop 3 (pending w).
Proof.
  intros Hcalm.
  destruct (main_calm w Hcalm)
    as (fa & fb & fc & w' & Hrun & [? ?] & [? ?] & [? ?] & Hu & Hf & Hp).
  exists w'. rewrite Hu, Hp. split_and!; [done| | | |].
  - do 2 (apply put_keeps_seeds; [done..|]). by apply put_seeds.
  - apply put_keeps_seeds; [done..|]. by apply put_seeds.
  - by apply put_seeds.
  - by destruct (pending w) as [|? [|? [|? ?]]].
Qed.

(** X21.  What the seed script establishes.  When its three upserts get
    through, [main] resolves after writing "Seed complete"; the user
    table then holds a row for each of alice, bob and carol, and every
    row with one of these usernames carries the display name Alice, Bob
    or Carol; the rows that were there before are still there, in place,
    with their identifiers and usernames; the edges are untouched. *)
Theorem seed_establishes_users (w : World) :
  calm 3 (pending w) →
  let res := seed.main w in
  res.1 = Resolved ["Seed complete"]
  ∧ seeded_with "alice" "Alice" (users res.2)
  ∧ seeded_with "bob" "Bob" (users res.2)
  ∧ seeded_with "carol" "Carol" (users res.2)
  ∧ ((λ u, (User.id u, User.username u)) <$> users w)
      `prefix_of` ((λ u, (User.id u, User.username u)) <$> users res.2)
  ∧ follows res.2 = follows w.
Proof.
  intros Hcalm. simpl.
  destruct (main_calm w Hcalm)
    as (fa & fb & fc & w' & -> & [? ?] & [? ?] & [? ?] & Hu & Hf & _).
  simpl. rewrite Hu. split_and!; try done.
  - do 2 (apply put_keeps_seeds; [done..|]). by apply put_seeds.
  - apply put_keeps_seeds; [done..|]. by apply put_seeds.
  - by apply put_seeds.
  - etrans; [|apply put_keys]. etrans; [|apply put_keys]. apply put_keys.
Qed.

Lemma seed_establishes_users_witness :
  seeded_with "carol" "Carol" (users (seed.main seeded).2)
  ∧ seeded_with "alice" "Alice"
      (users (seed.main (mkWorld [] [] 0 5 [] [] [] [])).2).
Proof.
  split.
  - by destruct (seed_establishes_users seeded) as (_ & _ & _ & H & _);
      [by_evaluation|].
  - by destruct (seed_establishes_users (mkWorld [] [] 0 5 [] [] [] []))
      as (_ & H & _); [by_evaluation|].
Defined.

(** X22.  Seeding twice is seeding once.  When the six upserts of two
    runs of [main] get through, the second run resolves and leaves both
    tables exactly as the first run left them: no row is added and no
    display name changes. *)
Theorem seed_is_idempotent (w : World) :
  calm 6 (pending w) →
  let once := seed.main w in
  let twice := seed.main once.2 in
  once.1 = Resolved ["Seed complete"]
  ∧ twice.1 = Resolved ["Seed complete"]
  ∧ tables twice.2 = tables once.2.
Proof.
  intros Hcalm. simpl.
  assert (calm 3 (pending w)) as Hcalm3 by (by eapply calm_le, Hcalm; lia).
  destruct (seed_lemma_once w Hcalm3) as (w1 & -> & Ha & Hb & Hc & Hp).
  simpl.
  assert (calm 3 (pending w1)) as Hcalm1.
  { rewrite Hp. by apply (calm_drop 3 3). }
  destruct (main_calm w1 Hcalm1)
    as (fa & fb & fc & w2 & -> & _ & _ & _ & Hu & Hf & _).
  simpl. split_and!; [done..|]. unfold tables. f_equal; [|done].
  rewrite Hu.
  rewrite (put_seeded_again "alice") by done.
  rewrite (put_seeded_again "bob") by done.
  by rewrite (put_seeded_again "carol") by done.
Qed.

Lemma seed_is_idempotent_witness :
  tables (seed.main (seed.main (mkWorld [bob] [] 0 5 [] [] [] [])).2).2
  = tables (seed.main (mkWorld [bob] [] 0 5 [] [] [] [])).2.
Proof.
  by destruct (seed_is_idempotent (mkWorld [bob] [] 0 5 [] [] [] []))
    as (_ & _ & H); [by_evaluation|].
Defined.

(** X23.  A failed seed is not rolled back.  When the first upsert
    fails, [main] rejects with the error of the store and the tables are
    unchanged.  When the first upsert gets through and the second one
    fails, [main] rejects with that error, the third upsert is never
    made, and the tables are those the first upsert left: alice has been
    written and stays written. *)
Theorem seed_failure_keeps_earlier_upserts (msg : string) (w : World) :
  (head (pending w) = Some (Some msg) →
   (seed.main w).1 = Rejected (JsError msg)
   ∧ tables (seed.main w).2 = tables w)
  ∧ (calm 1 (pending w) → pending w !! 1 = Some (Some msg) →
     (seed.main w).1 = Rejected (JsError msg)
     ∧ tables (seed.main w).2 = tables (seed.upsert "alice" "Alice" w).2
     ∧ seeded_with "alice" "Alice" (users (seed.main w).2)
     ∧ pending (seed.main w).2 = drop 2 (pending w)).
Proof.
  split.
  - intros Hmsg.
    assert (seed.main w = (Rejected (JsError msg), called w)) as ->; [|done].
    unfold seed.main, seed.seed_users. unfold Promise.await at 1.
    by rewrite (for_of_cons_rejected _ _ _ w (JsError msg) (called w))
      by (unfold Promise.await, seed.upsert; cbn [fst snd];
          by rewrite (store_call_fault _ _ msg)).
  - intros Hcalm Hmsg.
    destruct (upsert_calm "alice" "Alice" w Hcalm)
      as (ua & w1 & fa & Ea & ? & ? & Hu1 & Hf1 & Hp1).
    assert (head (pending w1) = Some (Some msg)) as Hhead.
    { rewrite Hp1. by destruct (pending w) as [|? [|? ?]]; simplify_eq/=. }
    assert (seed.main w = (Rejected (JsError msg), called w1)) as ->.
    { unfold seed.main, seed.seed_users. unfold Promise.await at 1.
      rewrite (for_of_cons_resolved _ _ _ w w1)
        by (unfold Promise.await; cbn [fst snd]; by rewrite Ea).
      by rewrite (for_of_cons_rejected _ _ _ w1 (JsError msg) (called w1))
        by (unfold Promise.await, seed.upsert; cbn [fst snd];
            by rewrite (store_call_fault _ _ msg)). }
    rewrite Ea. simpl. split_and!; [done..| |].
    + rewrite Hu1. by apply put_seeds.
    + rewrite Hp1. by destruct (pending w) as [|? [|? ?]].
Qed.

Lemma seed_failure_keeps_earlier_upserts_witness :
  (seed.main (mkWorld [] [] 0 5 [None; Some "timeout"] [] [] [])).1
  = Rejected (JsError "timeout")
  ∧ User.username
      <$> users (seed.main (mkWorld [] [] 0 5 [None; Some "timeout"] [] [] [])).2
    = ["alice"].
Proof.
  destruct (seed_failure_keeps_earlier_upserts "timeout"
              (mkWorld [] [] 0 5 [None; Some "timeout"] [] [] [])) as [_ H].
  destruct H as (Hrej & _); [by_evaluation|reflexivity|].
  split; [exact Hrej|reflexivity].
Defined.

(** ** Seeding keeps the constraints of the schema *)

Lemma grows_resolve {A} (a : A) : grows (Promise.resolve a).
Proof. intros w. by split_and!. Qed.

Lemma grows_await {A B} (p : Promise A) (k : A → Promise B) :
  grows p → (∀ a, grows (k a)) → grows (Promise.await p k).
Proof.
  intros Hp Hk w. unfold Promise.await.
  destruct (Hp w) as (Hf & Hu & Hn).
  destruct (p w) as [[a|e] w1]; simpl in *; [|done].
  destruct (Hk a w1) as (Hf' & Hu' & Hn').
  split_and!; [congruence|by etrans|lia].
Qed.

Lemma grows_upsert username displayName :
  grows (seed.upsert username displayName).
Proof. intros w. apply upsert_grows. Qed.

Lemma grows_for_of {A} (l : list A) (body : A → Promise unit) :
  (∀ x, grows (body x)) → grows (seed.for_of l body).
Proof.
  intros Hbody. induction l as [|x l IH]; simpl; [apply grows_resolve|].
  by apply grows_await.
Qed.

Lemma grows_main : grows seed.main.
Proof.
  unfold seed.main. apply grows_await; [|intros; apply grows_resolve].
  apply grows_for_of. intros [n d].
  apply grows_await; [apply grows_upsert|intros; apply grows_resolve].
Qed.

Lemma consistent_grows w w' :
  follows w' = follows w →
  ((λ u, (User.id u, User.username u)) <$> users w)
    `prefix_of` ((λ u, (User.id u, User.username u)) <$> users w') →
  id_seq w ≤ id_seq w' →
  consistent w → consistent w'.
Proof.
  intros Hf [k Hk] Hn [Hids Hpairs Href Hself Hfresh].
  assert (∀ x, x ∈ User.id <$> users w → x ∈ User.id <$> users w') as Hsub.
  { intros x (u & -> & Hu)%list_elem_of_fmap.
    assert ((User.id u, User.username u)
            ∈ (λ u, (User.id u, User.username u)) <$> users w') as Hin.
    { rewrite Hk, elem_of_app. left. apply list_elem_of_fmap. eauto. }
    apply list_elem_of_fmap in Hin as (v & [= -> _] & Hv).
    apply list_elem_of_fmap. eauto. }
  split; unfold unique_ids, unique_pairs, referential, no_self_edges,
    fresh_ids, user_exists in *; rewrite ?Hf; try done.
  - eapply Forall_impl; [exact Href|]. intros f [? ?]. auto.
  - intros j Hj. apply Hfresh. lia.
Qed.

(** The constraints of the [User] table survive an upsert. *)
Lemma put_user_constraints username displayName fresh us :
  User.username fresh = username →
  User.id fresh ∉ User.id <$> us →
  NoDup (User.id <$> us) → NoDup (User.username <$> us) →
  NoDup (User.id <$> seed.put username displayName fresh us)
  ∧ NoDup (User.username <$> seed.put username displayName fresh us).
Proof.
  intros Hname Hid Hids Hnames. unfold seed.put.
  destruct (head (filter _ us)) as [u|] eqn:Hhead.
  - rewrite <-!list_fmap_compose.
    assert (∀ (key : User.t → string),
              (∀ v, key (seed.renamed displayName v) = key v) →
              (key ∘ (λ v, if decide (User.username v = username)
                           then seed.renamed displayName v else v)) <$> us
              = key <$> us) as Hkey.
    { intros key Hk. apply list_fmap_ext. intros i v _. simpl.
      by case_decide. }
    by rewrite !Hkey.
  - assert (username ∉ User.username <$> us) as Hnew.
    { intros (v & Hv & Hin)%list_elem_of_fmap.
      assert (v ∈ filter (λ u, User.username u = username) us) as Hf
        by by apply list_elem_of_filter.
      destruct (filter _ us); [by apply not_elem_of_nil in Hf|done]. }
    rewrite !fmap_app. simpl. split; apply NoDup_app; split_and!; try done;
      try apply NoDup_singleton;
      intros x Hx ->%list_elem_of_singleton; congruence.
Qed.

Lemma upsert_user_constraints username displayName w :
  user_constraints w →
  user_constraints (seed.upsert username displayName w).2.
Proof.
  intros [Hids Hnames].
  assert (∀ fresh_name fresh_time,
            let fresh := User.mk (gen_user_id (next_user_id w)) username
                                 fresh_name fresh_time in
            NoDup (User.id <$> seed.put username displayName fresh (users w))
            ∧ NoDup (User.username
                       <$> seed.put username displayName fresh (users w)))
    as Hput.
  { intros. apply put_user_constraints; [done| |done..].
    simpl. unfold next_user_id.
    rewrite <-(length_fmap User.id (users w)). apply first_unused_fresh. }
  destruct w as [us fs n t [|[msg|] p] c ts sc]; unfold seed.upsert, store_call;
    simpl; try (by split);
    (destruct (head (filter _ us)) eqn:Hhead; simpl;
     split; simpl; apply Hput).
Qed.

Lemma keeps_resolve {A} I (a : A) : keeps I (Promise.resolve a).
Proof. by intros w. Qed.

Lemma keeps_await {A B} I (p : Promise A) (k : A → Promise B) :
  keeps I p → (∀ a, keeps I (k a)) → keeps I (Promise.await p k).
Proof.
  intros Hp Hk w Hw. unfold Promise.await. specialize (Hp w Hw).
  destruct (p w) as [[a|e] w1]; simpl in *; [|done]. by apply Hk.
Qed.

Lemma keeps_for_of {A} I (l : list A) (body : A → Promise unit) :
  (∀ x, keeps I (body x)) → keeps I (seed.for_of l body).
Proof.
  intros Hbody. induction l as [|x l IH]; simpl; [apply keeps_resolve|].
  by apply keeps_await.
Qed.

Lemma main_user_constraints : keeps user_constraints seed.main.
Proof.
  unfold seed.main. apply keeps_await; [|intros; apply keeps_resolve].
  apply keeps_for_of. intros [n d].
  apply keeps_await; [|intros; apply keeps_resolve].
  intros w. apply upsert_user_constraints.
Qed.

(** X24.  Seeding cannot break the schema constraints.  Let the
    constraints of both tables hold: those of [Follow] (edge identifiers
    and pairs are unique, no edge is a self edge, both ends of every
    edge exist) with the generator ahead of the edge identifiers, and
    those of [User] (identifiers are unique, usernames are unique).
    Whatever the environment does to its upserts, [main] leaves a world
    in which all of them still hold, the edges are untouched and no user
    row has lost its place, its identifier or its username. *)
Theorem seed_keeps_constraints (w : World) :
  consistent w → user_constraints w →
  consistent (seed.main w).2
  ∧ user_constraints (seed.main w).2
  ∧ follows (seed.main w).2 = follows w
  ∧ ((λ u, (User.id u, User.username u)) <$> users w)
      `prefix_of`
    ((λ u, (User.id u, User.username u)) <$> users (seed.main w).2).
Proof.
  intros Hw Husers. destruct (grows_main w) as (Hf & Hu & Hn).
  split_and!; [|by apply main_user_constraints|done..].
  by apply (consistent_grows w).
Qed.

Lemma seed_keeps_constraints_witness :
  let taken :=
    mkWorld [User.mk "user-0" "zed" None 0] [] 0 5 [] [] [] [] in
  User.id <$> users (seed.main taken).2
  = ["user-0"; "user-1"; "user-2"; "user-3"]
  ∧ NoDup (User.id <$> users (seed.main taken).2)
  ∧ NoDup (User.username <$> users (seed.main taken).2)
  ∧ referential (seed.main alice_follows_bob).2.
Proof.
  simpl. split; [reflexivity|].
  destruct (seed_keeps_constraints
              (mkWorld [User.mk "user-0" "zed" None 0] [] 0 5 [] [] [] []))
    as (_ & [Hids Hnames] & _).
  { split; unfold unique_ids, unique_pairs, referential, no_self_edges,
      fresh_ids; simpl; try by constructor.
    intros k _. apply not_elem_of_nil. }
  { split; by_evaluation. }
  split_and!; [exact Hids|exact Hnames|].
  apply consistent_references.
  apply (seed_keeps_constraints alice_follows_bob);
    [apply alice_follows_bob_consistent|split; by_evaluation].
Defined.

(** ** The statuses and codes the service answers with *)

Lemma rejects_client_call_raw {A} (run : World → outcome A * World) :
  (∀ w, match (run w).1 with Rejected (JsError _) | Resolved _ => True
                        | Rejected _ => False end) →
  rejects_within business_or_raw (store_call run).
Proof.
  intros Hrun. apply rejects_store_call; [done|].
  intros w e He. specialize (Hrun w). rewrite He in Hrun. by destruct e.
Qed.

Lemma business_error_thrown statusCode message code :
  (statusCode, code) ∈ business_errors →
  business_or_raw (createError statusCode message code).
Proof. done. Qed.

(** Splits a method into its awaited calls and names the business error
    of each rejection. *)
Ltac business :=
  repeat first
    [ apply rejects_resolve
    | apply rejects_reject; apply business_error_thrown; by_evaluation
    | apply rejects_reject; done
    | apply rejects_await; [|intros ?]
    | apply rejects_all
    | apply rejects_client_call_raw; intros ?; simpl; repeat case_match; done
    | match goal with
      | |- rejects_within _ (match ?x with _ => _ end) => destruct x
      | |- rejects_within _ (if ?x then _ else _) => destruct x
      | |- rejects_within _ (let '(_, _) := ?x in _) => destruct x
      end ].

Lemma service_business_rejections :
  (∀ r, rejects_within business_or_raw (FollowService.followUser r))
  ∧ (∀ r, rejects_within business_or_raw (FollowService.unfollowUser r))
  ∧ (∀ u p, rejects_within business_or_raw (FollowService.getFollowers u p))
  ∧ (∀ u p, rejects_within business_or_raw (FollowService.getFollowing u p))
  ∧ (∀ u, rejects_within business_or_raw (FollowService.getFollowerCount u))
  ∧ (∀ u, rejects_within business_or_raw (FollowService.getFollowingCount u))
  ∧ (∀ a b, rejects_within business_or_raw (FollowService.isFollowing a b)).
Proof.
  split_and!; intros;
    unfold FollowService.followUser, FollowService.unfollowUser,
      FollowService.getFollowers, FollowService.getFollowing,
      FollowService.getFollowerCount, FollowService.getFollowingCount,
      FollowService.isFollowing, prisma.user.findUnique,
      prisma.follow.findUnique, prisma.follow.count, prisma.follow.findMany,
      prisma.follow.delete, prisma.follow.create;
    business.
  apply rejects_try_catch; business.
  intros e He. business.
Qed.

Lemma errorHandler_expected e w :
  business_or_raw e → expected_answer (errorHandler e w).1.
Proof.
  intros He. do 3 right.
  destruct e as [sc m [c|]|m|v]; simpl in *; try done.
  - exists m, c. split; [done|]. by right.
  - exists "Internal server error", "INTERNAL_ERROR". split; [done|]. left.
  - exists "Internal server error", "INTERNAL_ERROR". split; [done|]. left.
Qed.

Lemma controller_expected {A} (svc : Promise A) (answer : A → Response) w :
  rejects_within business_or_raw svc →
  (∀ a, status (answer a) = 200%Z ∨ status (answer a) = 201%Z) →
  expected_answer
    (asyncHandler (let! a := svc in Promise.resolve (answer a)) w).1.
Proof.
  intros Hsvc Hanswer. unfold asyncHandler, Promise.await.
  specialize (Hsvc w). destruct (svc w) as [[a|e] w']; simpl in *.
  - destruct (Hanswer a); [by left|by right; left].
  - by apply errorHandler_expected, Hsvc.
Qed.

(** X26.  The statuses and codes the service can answer with.  For every
    operation, every argument and every environment, the answer is a
    success of status 200 or 201, or the 400 of [GET /follows/check]
    with a missing parameter, or an error body with a message and a code
    where status and code are one of 400 [SELF_FOLLOW], 404
    [USER_NOT_FOUND], 409 [DUPLICATE_FOLLOW], 404 [FOLLOW_NOT_FOUND] and
    500 [INTERNAL_ERROR].  In particular no operation ever answers with
    the code [INVALID_INPUT]. *)
Theorem answers_stay_in_the_taxonomy (op : Operation) (w : World) :
  status (serve op w).1 = 200%Z
  ∨ status (serve op w).1 = 201%Z
  ∨ (serve op w).1 = mkResponse 400 missing_parameters_body
  ∨ ∃ message code,
      body (serve op w).1 = error_body message (Some code)
      ∧ (status (serve op w).1, code)
        ∈ (500%Z, "INTERNAL_ERROR") :: business_errors.
Proof.
  destruct service_business_rejections
    as (Hf & Hu & Hfs & Hfg & Hfc & Hgc & Hi).
  change (expected_answer (serve op w).1).
  destruct op as [r|r|u p|u p| |u|u|[a|] [b|]]; simpl;
    unfold followController.follow, followController.unfollow,
      followController.getFollowers, followController.getFollowing,
      followController.getFollowerCount, followController.getFollowingCount,
      followController.isFollowing;
    try (apply controller_expected; by auto);
    try (by do 2 right; left).
  unfold followController.getAllUsers, asyncHandler, Promise.try_catch,
    Promise.await, FollowService.getAllUsers, prisma.user.findMany.
  destruct w as [us fs n t [|[msg|] p] c ts sc]; unfold store_call; simpl;
    try (by left).
  do 3 right. eexists _, _. split; [done|]. left.
Qed.

(** ** What reaches the console *)

Lemma silent_resolve {A} (a : A) : silent (Promise.resolve a).
Proof. done. Qed.

Lemma silent_reject {A} e : silent (@Promise.reject A e).
Proof. done. Qed.

Lemma silent_await {A B} (p : Promise A) (k : A → Promise B) :
  silent p → (∀ a, silent (k a)) → silent (Promise.await p k).
Proof.
  intros Hp Hk w. unfold Promise.await.
  specialize (Hp w). destruct (p w) as [[a|e] w']; simpl in *; [|done].
  by rewrite Hk.
Qed.

Lemma silent_all {A B} (p : Promise A) (q : Promise B) :
  silent p → silent q → silent (Promise.all p q).
Proof.
  intros Hp Hq w. unfold Promise.all.
  specialize (Hp w). destruct (p w) as [ra w1]; simpl in *.
  specialize (Hq w1). destruct (q w1) as [rb w2]; simpl in *.
  destruct ra, rb; simpl; congruence.
Qed.

Lemma silent_try_catch {A} (p : Promise A) (h : thrown → Promise A) :
  silent p → (∀ e, silent (h e)) → silent (Promise.try_catch p h).
Proof.
  intros Hp Hh w. unfold Promise.try_catch.
  specialize (Hp w). destruct (p w) as [[a|e] w']; simpl in *; [done|].
  by rewrite Hh.
Qed.

Lemma silent_store_call {A} (run : World → outcome A * World) :
  (∀ w, console (run w).2 = console w) → silent (store_call run).
Proof.
  intros Hrun [us fs n t [|[msg|] p] c ts sc]; unfold store_call; simpl;
    try done; by rewrite Hrun.
Qed.

(** Splits a method into its awaited calls and checks that none of them
    writes to the console. *)
Ltac silence :=
  repeat first
    [ apply silent_resolve
    | apply silent_reject
    | apply silent_await; [|intros ?]
    | apply silent_all
    | apply silent_try_catch; [|intros ?]
    | apply silent_store_call; intros ?; simpl; repeat case_match; done
    | match goal with
      | |- silent (match ?x with _ => _ end) => destruct x
      | |- silent (if ?x then _ else _) => destruct x
      | |- silent (let '(_, _) := ?x in _) => destruct x
      end ].

Lemma service_is_silent :
  (∀ r, silent (FollowService.followUser r))
  ∧ (∀ r, silent (FollowService.unfollowUser r))
  ∧ (∀ u p, silent (FollowService.getFollowers u p))
  ∧ (∀ u p, silent (FollowService.getFollowing u p))
  ∧ (∀ u, silent (FollowService.getFollowerCount u))
  ∧ (∀ u, silent (FollowService.getFollowingCount u))
  ∧ (∀ a b, silent (FollowService.isFollowing a b))
  ∧ silent FollowService.getAllUsers.
Proof.
  split_and!; intros;
    unfold FollowService.followUser, FollowService.unfollowUser,
      FollowService.getFollowers, FollowService.getFollowing,
      FollowService.getFollowerCount, FollowService.getFollowingCount,
      FollowService.isFollowing, FollowService.getAllUsers,
      prisma.user.findUnique, prisma.user.findMany,
      prisma.follow.findUnique, prisma.follow.count, prisma.follow.findMany,
      prisma.follow.delete, prisma.follow.create;
    silence.
Qed.

Lemma business_status statusCode code :
  (statusCode, code) ∈ business_errors →
  statusCode = 400%Z ∨ statusCode = 404%Z ∨ statusCode = 409%Z.
Proof.
  unfold business_errors. rewrite !elem_of_cons, elem_of_nil.
  intros [H|[H|[H|[H|[]]]]]; injection H as -> _; auto.
Qed.

Lemma errorHandler_not_plain e w :
  business_or_raw e ∨ (∃ m, e = createError 500 m ErrorCodes.INTERNAL_ERROR) →
  ¬ plain_answer (errorHandler e w).1.
Proof.
  intros He Hplain.
  assert (status (errorHandler e w).1 = 400%Z
          ∨ status (errorHandler e w).1 = 404%Z
          ∨ status (errorHandler e w).1 = 409%Z
          ∨ status (errorHandler e w).1 = 500%Z) as Hstatus.
  { destruct e as [sc m [c|]|m|v]; simpl in *; auto.
    - destruct He as [He|[m' [= -> _ _]]]; [|auto].
      apply business_status in He. intuition.
    - by destruct He as [He|[m' He]]. }
  destruct Hplain as [Hs|[Hs|Hs]]; [lia..|].
  destruct e as [sc m [c|]|m|v]; simpl in *; try done.
  by destruct He as [He|[m' He]].
Qed.

Lemma errorHandler_account e w0 w :
  business_or_raw e ∨ (∃ m, e = createError 500 m ErrorCodes.INTERNAL_ERROR) →
  console w0 `prefix_of` console w →
  console_account w0 (errorHandler e w).
Proof.
  intros He Hpre. right. exists e, w. split_and!; try done.
  - by apply errorHandler_not_plain.
  - etrans; [exact Hpre|].
    destruct e; simpl; rewrite <-?app_assoc; apply prefix_app_r; done.
  - apply errorHandler_logs.
Qed.

Lemma controller_account {A} (svc : Promise A) (answer : A → Response) w :
  rejects_within business_or_raw svc → silent svc →
  (∀ a, status (answer a) = 200%Z ∨ status (answer a) = 201%Z) →
  console_account w
    (asyncHandler (let! a := svc in Promise.resolve (answer a)) w).
Proof.
  intros Hsvc Hsilent Hanswer. unfold asyncHandler, Promise.await.
  specialize (Hsvc w). specialize (Hsilent w).
  destruct (svc w) as [[a|e] w']; simpl in *.
  - left. split; [|done]. unfold plain_answer. destruct (Hanswer a); auto.
  - apply errorHandler_account; [left; by apply Hsvc|]. by rewrite Hsilent.
Qed.

(** X27.  The console tells the errors and nothing else.  For every
    operation, argument and environment: when the answer is a success
    (200 or 201) or the 400 of a missing query parameter, the console is
    what it was; in every other case the answer is the one
    [errorHandler] gives to some thrown value, the console has only
    grown, and that thrown value is written in it.  Business errors such
    as [USER_NOT_FOUND] are logged like internal ones. *)
Theorem console_tells_the_errors (op : Operation) (w : World) :
  (plain_answer (serve op w).1 ∧ console (serve op w).2 = console w)
  ∨ ∃ e w',
      (serve op w).1 = (errorHandler e w').1
      ∧ ¬ plain_answer (serve op w).1
      ∧ console w `prefix_of` console (serve op w).2
      ∧ LogSerialized e ∈ console (serve op w).2.
Proof.
  destruct service_business_rejections
    as (Hf & Hu & Hfs & Hfg & Hfc & Hgc & Hi).
  destruct service_is_silent
    as (Sf & Su & Sfs & Sfg & Sfc & Sgc & Si & Sall).
  change (console_account w (serve op w)).
  destruct op as [r|r|u p|u p| |u|u|[a|] [b|]]; simpl;
    unfold followController.follow, followController.unfollow,
      followController.getFollowers, followController.getFollowing,
      followController.getFollowerCount, followController.getFollowingCount,
      followController.isFollowing;
    try (apply controller_account; by auto);
    try (left; split; [by do 2 right|done]).
  unfold followController.getAllUsers, asyncHandler, Promise.try_catch,
    Promise.await, FollowService.getAllUsers, prisma.user.findMany.
  destruct w as [us fs n t [|[msg|] p] c ts sc]; unfold store_call;
    cbn -[errorHandler]; try (left; split; [by left|done]).
  apply errorHandler_account; [right; by eexists|].
  simpl. by apply prefix_app_r.
Qed.
